(** * Tenant-scoped policy cache: the cache, the tenant-aware adapter, the
    invalidation handler, the request queue and the rate limiter.

    A shallow embedding of the JavaScript sources (casbin.js,
    tenant-aware-adapter.js, index.js) and the properties of the
    specification proved or refuted on it. *)

From stdpp Require Import gmap strings pretty list fin_maps sorting.
From Stdlib Require Import ZArith Lia.

(** ** JavaScript values and control flow used by the sources *)

Module Js.

(** A call either returns or throws an [Error] with a message. *)
Inductive Result (A : Type) : Type :=
| Ok (a : A)
| Throw (message : string).
Global Arguments Ok {A} a.
Global Arguments Throw {A} message.

Definition bind {A B : Type} (r : Result A) (k : A → Result B) : Result B :=
  match r with
  | Ok a => k a
  | Throw msg => Throw msg
  end.

(** Truthiness of a string: only the empty string is falsy. *)
Definition truthy (s : string) : bool := negb (String.eqb s "").

(** Truthiness of a value that is a string, [null] or [undefined]. *)
Definition truthy_opt (o : option string) : bool :=
  match o with
  | Some s => truthy s
  | None => false
  end.

(** [a || b] for a string-or-undefined [a] and a string [b]. *)
Definition or_else (a : option string) (b : string) : string :=
  match a with
  | Some s => if truthy s then s else b
  | None => b
  end.

(** The binary64 constant [0.7] is [mantissa_0_7 * 2^-53]. *)
Definition mantissa_0_7 : Z := 6305039478318694.

(** Rounding to binary64 (nearest, ties to even) of the non-negative
    dyadic number [num * 2^-53]; the result is again given in units of
    [2^-53]. *)
Definition round_binary64 (num : Z) : Z :=
  let shift := (Z.log2 num - 52)%Z in
  if (shift <=? 0)%Z then num
  else
    let q := Z.shiftr num shift in
    let rem := Z.land num (Z.ones shift) in
    let half := Z.shiftl 1 (shift - 1) in
    let up := orb (half <? rem)%Z (andb (rem =? half)%Z (Z.odd q)) in
    Z.shiftl (if up then q + 1 else q)%Z shift.

(** [Math.floor(n * 0.7)] for an integer [0 <= n < 2^53]: the exact
    product of the two doubles, rounded once, then floored. *)
Definition floor_mul_0_7 (n : Z) : Z :=
  Z.shiftr (round_binary64 (n * mantissa_0_7)) 53.

Global Arguments round_binary64 : simpl never.
Global Arguments floor_mul_0_7 : simpl never.

(** A number of the memory accounting: a whole number of bytes, or
    [NaN]. *)
Inductive Number : Type :=
| Num (z : Z)
| NaN.

Global Instance Number_eq_dec : EqDecision Number.
Proof. solve_decision. Defined.

(** [a + b] and [a * b]: [NaN] on either side gives [NaN]. *)
Definition add (a b : Number) : Number :=
  match a, b with
  | Num x, Num y => Num (x + y)
  | _, _ => NaN
  end.

Definition mul (a b : Number) : Number :=
  match a, b with
  | Num x, Num y => Num (x * y)
  | _, _ => NaN
  end.

(** The conversion to a number of a value that is a whole number or
    [undefined]: [undefined] becomes [NaN]. *)
Definition to_number (v : option Z) : Number :=
  match v with
  | Some z => Num z
  | None => NaN
  end.

End Js.

(** ** casbin.js: the memory-aware LRU cache of tenant enforcers *)

Module TenantEnforcerCache.

(** A policy line held by an enforcer: a JavaScript array whose elements
    are strings or [null]. *)
Definition Rule : Type := list (option string).

(** What a listing method hands to a caller that does not [await] it:
    an array of lines; a Promise of the lines, as the [async] methods
    [getPolicy] and [getGroupingPolicy] of the policy engine's enforcer
    return (the sources [await] them everywhere but in
    [estimateEnforcerMemory]); or an exception. *)
Inductive Listing : Type :=
| Array (lines : list Rule)
| Promise (lines : list Rule)
| Raises.

(** The enforcer as the cache uses it: the two listings read by
    [estimateEnforcerMemory]. *)
Record Enforcer : Type := mkEnforcer {
  getPolicy : Listing;
  getGroupingPolicy : Listing
}.

(** [listing.length]: the number of lines of an array, [undefined] on a
    Promise. *)
Definition length_of (listing : Listing) : option Z :=
  match listing with
  | Array lines => Some (Z.of_nat (length lines))
  | Promise _ => None
  | Raises => None
  end.

(** [getCurrentMemoryUsage()]: a reading of [process.memoryUsage()],
    in megabytes after [Math.round]. *)
Record MemoryUsage : Type := mkMemoryUsage {
  rss : Z;
  heapUsed : Z;
  heapTotal : Z;
  external : Z
}.

(** The fields of a [TenantEnforcerCache]; the two [Map]s are only read
    by key, by size and by the sum of their values. *)
Record Cache : Type := mkCache {
  maxSize : nat;
  cache : gmap string Enforcer;
  accessOrder : list string;
  memoryUsage : gmap string Js.Number;
  lastCleanup : Z;
  cleanupInterval : Z
}.

(** [new TenantEnforcerCache(maxSize)] at time [now]. *)
Definition new (maxSize : nat) (now : Z) : Cache :=
  {| maxSize := maxSize; cache := ∅; accessOrder := [];
     memoryUsage := ∅; lastCleanup := now; cleanupInterval := 30000 |}.

(** [estimateEnforcerMemory(enforcer)].  The two listings are read
    without [await]: on a Promise [length] is [undefined] and the
    products, and with them the sum, are [NaN]; no exception is raised,
    so the default of the [catch] block is returned only when a listing
    throws. *)
Definition estimateEnforcerMemory (enforcer : Enforcer) : Js.Number :=
  match getPolicy enforcer, getGroupingPolicy enforcer with
  | Raises, _ | _, Raises => Js.Num 2048
  | policies, groupingPolicies =>
      let policyMemory :=
        Js.mul (Js.to_number (length_of policies)) (Js.Num 100) in
      let groupingMemory :=
        Js.mul (Js.to_number (length_of groupingPolicies)) (Js.Num 80) in
      let baseMemory := Js.Num 1024 in
      Js.add (Js.add policyMemory groupingMemory) baseMemory
  end.

(** [Array.from(this.memoryUsage.values()).reduce((sum, mem) => sum + mem, 0)];
    the sum does not depend on the order of the values. *)
Definition totalCacheMemory (c : Cache) : Js.Number :=
  foldr Js.add (Js.Num 0) (snd <$> map_to_list (memoryUsage c)).

(** [(heapUsed / heapTotal) * 100 > percent].  The readings are whole
    megabytes, for which the comparison of the doubles agrees with the
    comparison of the exact quotients; a zero [heapTotal] gives
    [Infinity] (greater) or [NaN] (not greater). *)
Definition heapUsagePercent_gt (m : MemoryUsage) (percent : Z) : bool :=
  if (heapTotal m =? 0)%Z then (0 <? heapUsed m)%Z
  else if (0 <? heapTotal m)%Z
       then (percent * heapTotal m <? heapUsed m * 100)%Z
       else (heapUsed m * 100 <? percent * heapTotal m)%Z.

Definition shouldAggressiveEvict (m : MemoryUsage) : bool :=
  heapUsagePercent_gt m 70.

(** [evictTenant(tenant)].  The teardown of the evicted enforcer
    ([clearPolicy], the collection hint) acts on an object that leaves
    the cache and is caught if it throws; the three structures of the
    cache are what the call changes. *)
Definition evictTenant (tenant : string) (c : Cache) : Cache :=
  {| maxSize := maxSize c;
     cache := base.delete tenant (cache c);
     accessOrder := filter (λ t, t ≠ tenant) (accessOrder c);
     memoryUsage := base.delete tenant (memoryUsage c);
     lastCleanup := lastCleanup c;
     cleanupInterval := cleanupInterval c |}.

Definition with_accessOrder (order : list string) (c : Cache) : Cache :=
  {| maxSize := maxSize c; cache := cache c; accessOrder := order;
     memoryUsage := memoryUsage c; lastCleanup := lastCleanup c;
     cleanupInterval := cleanupInterval c |}.

Definition with_lastCleanup (now : Z) (c : Cache) : Cache :=
  {| maxSize := maxSize c; cache := cache c; accessOrder := accessOrder c;
     memoryUsage := memoryUsage c; lastCleanup := now;
     cleanupInterval := cleanupInterval c |}.

(** [const lruTenant = this.accessOrder.shift();
     if (lruTenant) { this.evictTenant(lruTenant); }] *)
Definition evictLru (c : Cache) : Cache :=
  match accessOrder c with
  | [] => c
  | lruTenant :: rest =>
      let c' := with_accessOrder rest c in
      if Js.truthy lruTenant then evictTenant lruTenant c' else c'
  end.

(** [for (let i = 0; i < evictCount; i++) { ... }] *)
Fixpoint evictLoop (evictCount : nat) (c : Cache) : Cache :=
  match evictCount with
  | O => c
  | S n => evictLoop n (evictLru c)
  end.

(** [cleanup()], at clock reading [now] and memory reading [mem]
    (the total it computes first is only logged). *)
Definition cleanup (now : Z) (mem : MemoryUsage) (c : Cache) : Cache :=
  if (now - lastCleanup c <? cleanupInterval c)%Z then c
  else
    let size := base.size (cache c) in
    let c' :=
      if shouldAggressiveEvict mem then
        evictLoop (Z.to_nat (Js.floor_mul_0_7 (Z.of_nat size))) c
      else if maxSize c <? size then
        evictLoop (size - maxSize c) c
      else c in
    with_lastCleanup now c'.

Definition touch (tenant : string) (order : list string) : list string :=
  filter (λ t, t ≠ tenant) order ++ [tenant].

Definition get (now : Z) (mem : MemoryUsage) (tenant : string) (c : Cache)
  : Cache * option Enforcer :=
  let c := cleanup now mem c in
  match cache c !! tenant with
  | Some enforcer =>
      (with_accessOrder (touch tenant (accessOrder c)) c, Some enforcer)
  | None => (c, None)
  end.

Definition set (now : Z) (mem : MemoryUsage) (tenant : string)
    (enforcer : Enforcer) (c : Cache) : Cache :=
  let c := cleanup now mem c in
  match cache c !! tenant with
  | Some _ =>
      {| maxSize := maxSize c;
         cache := <[tenant := enforcer]> (cache c);
         accessOrder := touch tenant (accessOrder c);
         memoryUsage := memoryUsage c;
         lastCleanup := lastCleanup c;
         cleanupInterval := cleanupInterval c |}
  | None =>
      let c :=
        if maxSize c <=? base.size (cache c)
        then evictLru c else c in
      let estimatedMemory := estimateEnforcerMemory enforcer in
      {| maxSize := maxSize c;
         cache := <[tenant := enforcer]> (cache c);
         accessOrder := accessOrder c ++ [tenant];
         memoryUsage := <[tenant := estimatedMemory]> (memoryUsage c);
         lastCleanup := lastCleanup c;
         cleanupInterval := cleanupInterval c |}
  end.

Definition delete (tenant : string) (c : Cache) : Cache :=
  evictTenant tenant c.

Definition size (c : Cache) : nat := base.size (cache c).

(** The representation invariant: the access order lists each cached
    tenant once, every listed tenant is a truthy string, and memory is
    accounted for exactly the cached tenants. *)
Record WF (c : Cache) : Prop := mkWF {
  wf_nodup : NoDup (accessOrder c);
  wf_dom : dom (cache c) = list_to_set (accessOrder c);
  wf_truthy : Forall (λ t, Js.truthy t = true) (accessOrder c);
  wf_memory : dom (memoryUsage c) = dom (cache c)
}.

(** The map left when the tenants of [l] have been deleted, first to
    last. *)
Definition evicted {A : Type} (l : list string) (m : gmap string A)
  : gmap string A :=
  foldl (λ m t, base.delete t m) m l.

(** The calls a client of the cache makes, each with the readings of
    the clock and of the memory it meets. *)
Inductive Op : Type :=
| OpGet (now : Z) (mem : MemoryUsage) (tenant : string)
| OpSet (now : Z) (mem : MemoryUsage) (tenant : string) (enforcer : Enforcer)
| OpDelete (tenant : string).

Definition apply (c : Cache) (op : Op) : Cache :=
  match op with
  | OpGet now mem tenant => fst (get now mem tenant c)
  | OpSet now mem tenant enforcer => set now mem tenant enforcer c
  | OpDelete tenant => delete tenant c
  end.

Definition run (ops : list Op) (c : Cache) : Cache := foldl apply c ops.

(** Tenant identifiers handed to [set] are truthy strings: the loader
    throws on a falsy tenant, so no enforcer exists for one. *)
Definition validOp (op : Op) : Prop :=
  match op with
  | OpSet _ _ tenant _ => Js.truthy tenant = true
  | _ => True
  end.

(** Recency, stated on the history of calls and not on [accessOrder]:
    a call uses a tenant when it is a [set] of the tenant or a [get]
    that finds it cached. *)
Definition usesTenant (c : Cache) (op : Op) (tenant : string) : bool :=
  match op with
  | OpGet now mem t =>
      bool_decide (t = tenant)
      && bool_decide (is_Some (snd (get now mem t c)))
  | OpSet _ _ t _ => bool_decide (t = tenant)
  | OpDelete _ => false
  end.

(** The number of the last call, among [ops] run from [c] and counted
    from [k + 1], that used the tenant; [last] if none did. *)
Fixpoint lastUseFrom (k last : nat) (c : Cache) (ops : list Op)
    (tenant : string) : nat :=
  match ops with
  | [] => last
  | op :: rest =>
      lastUseFrom (S k) (if usesTenant c op tenant then S k else last)
                  (apply c op) rest tenant
  end.

(** When the tenant was last used in the history [ops] of a cache built
    by [new]: the number of the call, from 1; 0 if it never was. *)
Definition lastUse (capacity : nat) (now0 : Z) (ops : list Op)
    (tenant : string) : nat :=
  lastUseFrom 0 0 (new capacity now0) ops tenant.

End TenantEnforcerCache.

(** ** tenant-aware-adapter.js: loading one tenant's lines from the shared table *)

Module TenantAwareAdapter.

(** A row of the shared table [casbin_rule]; every value column is
    nullable. *)
Record CasbinRule : Type := mkCasbinRule {
  ptype : string;
  v0 : option string;
  v1 : option string;
  v2 : option string;
  v3 : option string;
  v4 : option string
}.

Global Instance CasbinRule_eq_dec : EqDecision CasbinRule.
Proof. solve_decision. Defined.

(** The tenant column of a row: [v3] for permission lines, [v2] for
    grouping lines (the [CASE] of [getDatabaseStats]). *)
Definition tenantOf (r : CasbinRule) : option string :=
  if decide (ptype r = "p") then v3 r
  else if decide (ptype r = "g") then v2 r
  else None.

(** The store behind [sequelize.query]: the table, or a store whose
    queries fail (connection error, timeout). *)
Record Store : Type := mkStore {
  available : bool;
  casbin_rule : list CasbinRule
}.

(** SQL [column = ?]: never true on [NULL]; the store is taken to
    compare strings exactly. *)
Definition sql_eq (column param : option string) : Prop :=
  match column, param with
  | Some a, Some b => a = b
  | _, _ => False
  end.

Global Instance sql_eq_dec column param : Decision (sql_eq column param).
Proof. destruct column, param; simpl; apply _. Defined.

(** [SELECT ... FROM casbin_rule WHERE <predicate>] *)
Definition select (s : Store) (P : CasbinRule → Prop)
    `{!∀ r, Decision (P r)} : Js.Result (list CasbinRule) :=
  if available s then Js.Ok (filter P (casbin_rule s))
  else Js.Throw "store unavailable".

(** The in-memory policy of the engine's model: the lines of section
    [p] and of section [g]. *)
Record Model : Type := mkModel {
  p : list TenantEnforcerCache.Rule;
  g : list TenantEnforcerCache.Rule
}.

Definition emptyModel : Model := {| p := []; g := [] |}.

(** [model.hasPolicy(sec, ptype, rule)] of the policy engine: the
    section holds a line with the same values. *)
Definition hasPolicy (lines : list TenantEnforcerCache.Rule)
    (rule : TenantEnforcerCache.Rule) : bool :=
  bool_decide (rule ∈ lines).

(** [model.addPolicy(sec, ptype, rule)] of the policy engine: a line the
    section already holds is not added again. *)
Definition addPolicy (sec ptype : string) (rule : TenantEnforcerCache.Rule)
    (model : Model) : Model :=
  if decide (ptype = "p") then
    if hasPolicy (p model) rule then model
    else {| p := p model ++ [rule]; g := g model |}
  else if decide (ptype = "g") then
    if hasPolicy (g model) rule then model
    else {| p := p model; g := g model ++ [rule] |}
  else model.

(** The lines of [rules] that are not among [seen], each where it
    first occurs: what [addPolicy], called with each line in turn,
    appends to a section that holds [seen]. *)
Fixpoint distinct (seen rules : list TenantEnforcerCache.Rule)
  : list TenantEnforcerCache.Rule :=
  match rules with
  | [] => []
  | rule :: rest =>
      if hasPolicy seen rule then distinct seen rest
      else rule :: distinct (seen ++ [rule]) rest
  end.

(** [[policy.v0, policy.v1, policy.v2, policy.v3, policy.v4].filter(v => v !== null)] *)
Definition policyArray (policy : CasbinRule) : TenantEnforcerCache.Rule :=
  filter (λ v, v ≠ None) [v0 policy; v1 policy; v2 policy; v3 policy; v4 policy].

(** [[groupingPolicy.v0, groupingPolicy.v1, groupingPolicy.v2]] *)
Definition groupingArray (groupingPolicy : CasbinRule) : TenantEnforcerCache.Rule :=
  [v0 groupingPolicy; v1 groupingPolicy; v2 groupingPolicy].

(** [loadPolicy(model)] of an adapter whose [this.tenant] is [tenant]. *)
Definition loadPolicy (tenant : option string) (s : Store) (model : Model)
  : Js.Result Model :=
  if negb (Js.truthy_opt tenant) then
    Js.Throw "Tenant must be set before loading policies"
  else
    Js.bind (select s (λ r, ptype r = "p" ∧ sql_eq (v3 r) tenant)) (λ policies,
    Js.bind (select s (λ r, ptype r = "g" ∧ sql_eq (v2 r) tenant)) (λ groupingPolicies,
      let model :=
        foldl (λ m policy, addPolicy "p" "p" (policyArray policy) m)
              model policies in
      let model :=
        foldl (λ m groupingPolicy,
                 addPolicy "g" "g" (groupingArray groupingPolicy) m)
              model groupingPolicies in
      Js.Ok model)).

(** The tenant position of a line held in memory: the fourth value of
    a permission line, the third of a grouping line. *)
Definition tenantField (kind : string) (rule : TenantEnforcerCache.Rule)
  : option (option string) :=
  if decide (kind = "p") then rule !! 3%nat else rule !! 2%nat.

(** A permission row that carries its subject, object and action. *)
Definition complete (r : CasbinRule) : Prop :=
  v0 r ≠ None ∧ v1 r ≠ None ∧ v2 r ≠ None.

End TenantAwareAdapter.

(** ** casbin.js: building, refreshing and invalidating tenant enforcers *)

Module Casbin.
Import TenantEnforcerCache.

(** [newEnforcer(model.conf, adapter)] once the adapter has filled the
    model: the enforcer lists the lines of the model. *)
Definition enforcerOf (m : TenantAwareAdapter.Model) : Enforcer :=
  {| getPolicy := Promise (TenantAwareAdapter.p m);
     getGroupingPolicy := Promise (TenantAwareAdapter.g m) |}.

(** [createTenantEnforcer(tenant)]: the shared pool hands out an adapter
    with [setTenant(tenant)]; [newEnforcer] loads the policy through
    it; any error is logged and rethrown. *)
Definition createTenantEnforcer (s : TenantAwareAdapter.Store)
    (tenant : string) : Js.Result Enforcer :=
  Js.bind
    (TenantAwareAdapter.loadPolicy (Some tenant) s TenantAwareAdapter.emptyModel)
    (λ m, Js.Ok (enforcerOf m)).

(** [refreshTenantPolicies(tenant)]: the [catch] logs and returns. *)
Definition refreshTenantPolicies (s : TenantAwareAdapter.Store)
    (now : Z) (mem : MemoryUsage) (tenant : string) (tenantCache : Cache)
  : Cache :=
  match createTenantEnforcer s tenant with
  | Js.Ok newEnforcer => set now mem tenant newEnforcer tenantCache
  | Js.Throw _ => tenantCache
  end.

(** [removeTenant(tenant)] *)
Definition removeTenant (tenant : string) (tenantCache : Cache) : Cache :=
  delete tenant tenantCache.

(** The module functions are [async]: while one is suspended at an
    [await], the others run.  A [Step] is one synchronous piece of a
    module function, as it acts on the cache: the lookup that opens
    [getTenantEnforcer]; the piece that follows an
    [await createTenantEnforcer(tenant)], in [getTenantEnforcer] and in
    [refreshTenantPolicies], which stores the enforcer if one was
    built; and [removeTenant]. *)
Inductive Step : Type :=
| StepGet (now : Z) (mem : MemoryUsage) (tenant : string)
| StepSet (s : TenantAwareAdapter.Store) (now : Z) (mem : MemoryUsage)
    (tenant : string)
| StepDelete (tenant : string).

Definition step (c : Cache) (k : Step) : Cache :=
  match k with
  | StepGet now mem tenant => fst (get now mem tenant c)
  | StepSet s now mem tenant => refreshTenantPolicies s now mem tenant c
  | StepDelete tenant => removeTenant tenant c
  end.

Definition steps (during : list Step) (c : Cache) : Cache :=
  foldl step c during.

(** [getTenantEnforcer(tenant)].  On a hit the call returns at once.  On
    a miss it is suspended at [await createTenantEnforcer(tenant)]:
    [during] is what the other calls do to the cache meanwhile, and the
    enforcer is stored in the cache they leave.  The clock and the
    memory are read once by [get] and once more by [set]. *)
Definition getTenantEnforcer (s : TenantAwareAdapter.Store)
    (now : Z) (mem : MemoryUsage) (during : list Step)
    (now' : Z) (mem' : MemoryUsage)
    (tenant : string) (tenantCache : Cache) : Cache * Js.Result Enforcer :=
  match get now mem tenant tenantCache with
  | (c, Some enforcer) => (c, Js.Ok enforcer)
  | (c, None) =>
      match createTenantEnforcer s tenant with
      | Js.Ok enforcer =>
          (set now' mem' tenant enforcer (steps during c), Js.Ok enforcer)
      | Js.Throw msg => (steps during c, Js.Throw msg)
      end
  end.

(** [const tenantCache = new TenantEnforcerCache(50)] *)
Definition tenantCache (now : Z) : Cache := new 50 now.

(** The calls through which the module touches its cache. *)
Inductive Call : Type :=
| CallGetTenantEnforcer (s : TenantAwareAdapter.Store)
    (now : Z) (mem : MemoryUsage) (during : list Step)
    (now' : Z) (mem' : MemoryUsage) (tenant : string)
| CallRefreshTenantPolicies (s : TenantAwareAdapter.Store)
    (now : Z) (mem : MemoryUsage) (tenant : string)
| CallRemoveTenant (tenant : string).

Definition call (c : Cache) (k : Call) : Cache :=
  match k with
  | CallGetTenantEnforcer s now mem during now' mem' tenant =>
      fst (getTenantEnforcer s now mem during now' mem' tenant c)
  | CallRefreshTenantPolicies s now mem tenant =>
      refreshTenantPolicies s now mem tenant c
  | CallRemoveTenant tenant => removeTenant tenant c
  end.

(** The part of [process.env] the module reads. *)
Record Env : Type := mkEnv {
  SERVER_ID : option string;
  PORT : option string
}.

(** The payload of a message on the channel [tenant-refresh]. *)
Record RefreshMessage : Type := mkRefreshMessage {
  tenant : string;
  operation : string;
  serverId : option string;
  timestamp : string
}.

(** [`server-${process.env.PORT || 3000}`] *)
Definition defaultServerId (env : Env) : string :=
  String.append "server-" (Js.or_else (PORT env) "3000").

(** [process.env.SERVER_ID || `server-${process.env.PORT || 3000}`]:
    the identity a replica stamps on the messages it publishes. *)
Definition ownServerId (env : Env) : string :=
  Js.or_else (SERVER_ID env) (defaultServerId env).

(** [publishTenantRefresh(tenant, operation)]: the message sent, if the
    broker is ready. *)
Definition publishTenantRefresh (env : Env) (redisReady : bool)
    (tenant operation timestamp : string) : option RefreshMessage :=
  if redisReady then
    Some {| tenant := tenant; operation := operation;
            serverId := Some (ownServerId env); timestamp := timestamp |}
  else None.

(** [serverId === process.env.SERVER_ID ||
     serverId === `server-${process.env.PORT || 3000}`] *)
Definition isOwnMessage (env : Env) (data : RefreshMessage) : bool :=
  bool_decide (serverId data = SERVER_ID env)
  || bool_decide (serverId data = Some (defaultServerId env)).

(** [handleTenantRefresh(data)]: returns the tenants for which
    [refreshTenantPolicies] was called, and the cache afterwards. *)
Definition handleTenantRefresh (env : Env) (s : TenantAwareAdapter.Store)
    (now : Z) (mem : MemoryUsage) (data : RefreshMessage)
    (tenantCache : Cache) : list string * Cache :=
  if isOwnMessage env data then ([], tenantCache)
  else ([tenant data], refreshTenantPolicies s now mem (tenant data) tenantCache).

(** [refreshTenantAndNotify(tenant, operation)]: the refresh, then the
    publication; neither throws.  Returns the cache and the message
    sent, if any. *)
Definition refreshTenantAndNotify (env : Env) (s : TenantAwareAdapter.Store)
    (now : Z) (mem : MemoryUsage) (redisReady : bool)
    (tenant operation timestamp : string) (tenantCache : Cache)
  : Cache * option RefreshMessage :=
  (refreshTenantPolicies s now mem tenant tenantCache,
   publishTenantRefresh env redisReady tenant operation timestamp).

(** [checkAccess(userId, obj, act, tenant)]; [enforce] stands for the
    call [enforcer.enforce(userId, obj, act, tenant)] of the policy
    engine, which may throw. *)
Definition checkAccess (enforce : Enforcer → Js.Result bool)
    (s : TenantAwareAdapter.Store)
    (now : Z) (mem : MemoryUsage) (during : list Step)
    (now' : Z) (mem' : MemoryUsage)
    (tenant : string) (tenantCache : Cache) : Cache * bool :=
  match getTenantEnforcer s now mem during now' mem' tenant tenantCache with
  | (c, Js.Ok enforcer) =>
      (c, match enforce enforcer with
          | Js.Ok result => result
          | Js.Throw _ => false
          end)
  | (c, Js.Throw _) => (c, false)
  end.

End Casbin.

(** ** index.js: request queue, rate limiter and duplicate pre-check *)

Module RequestQueue.

(** A task is identified by a number; what it computes is not looked at. *)
Definition Task : Type := nat.

Record QueueEntry : Type := mkQueueEntry {
  task : Task;
  timestamp : Z
}.

(** [averageWaitTime] is [totalWaitTime / totalRequests], recomputed at
    every dispatch; it is derived from the two counters kept here. *)
Record Stats : Type := mkStats {
  totalRequests : nat;
  queuedRequests : nat;
  rejectedRequests : nat;
  totalWaitTime : Z
}.

Record Queue : Type := mkQueue {
  maxConcurrent : nat;
  maxQueueSize : nat;
  running : nat;
  queue : list QueueEntry;
  stats : Stats
}.

(** [new RequestQueue(maxConcurrent, maxQueueSize)] *)
Definition new (maxConcurrent maxQueueSize : nat) : Queue :=
  {| maxConcurrent := maxConcurrent; maxQueueSize := maxQueueSize;
     running := 0; queue := [];
     stats := {| totalRequests := 0; queuedRequests := 0;
                 rejectedRequests := 0; totalWaitTime := 0 |} |}.

Definition queueFull : string :=
  "Request queue is full. Please try again later.".

(** [processQueue()] up to its [await task()]: the task started, if any. *)
Definition processQueue (now : Z) (q : Queue) : Queue * option Task :=
  if (maxConcurrent q <=? running q) || bool_decide (length (queue q) = 0)
  then (q, None)
  else
    match queue q with
    | [] => (q, None)
    | entry :: rest =>
        let waitTime := (now - timestamp entry)%Z in
        ({| maxConcurrent := maxConcurrent q; maxQueueSize := maxQueueSize q;
            running := S (running q);
            queue := rest;
            stats := {| totalRequests := totalRequests (stats q);
                        queuedRequests := queuedRequests (stats q);
                        rejectedRequests := rejectedRequests (stats q);
                        totalWaitTime := (totalWaitTime (stats q) + waitTime)%Z |} |},
         Some (task entry))
    end.

(** The outcome of [add(task)] when it returns: the promise is rejected
    at once ([Throw]), or stays pending; in the second case the task
    that [processQueue] started is reported. *)
Definition add (now : Z) (t : Task) (q : Queue)
  : Queue * Js.Result (option Task) :=
  let st := stats q in
  if maxQueueSize q <=? length (queue q) then
    ({| maxConcurrent := maxConcurrent q; maxQueueSize := maxQueueSize q;
        running := running q; queue := queue q;
        stats := {| totalRequests := S (totalRequests st);
                    queuedRequests := queuedRequests st;
                    rejectedRequests := S (rejectedRequests st);
                    totalWaitTime := totalWaitTime st |} |},
     Js.Throw queueFull)
  else
    let queueEntry := {| task := t; timestamp := now |} in
    let q' :=
      {| maxConcurrent := maxConcurrent q; maxQueueSize := maxQueueSize q;
         running := running q; queue := queue q ++ [queueEntry];
         stats := {| totalRequests := S (totalRequests st);
                     queuedRequests := S (queuedRequests st);
                     rejectedRequests := rejectedRequests st;
                     totalWaitTime := totalWaitTime st |} |} in
    let (q'', started) := processQueue now q' in
    (q'', Js.Ok started).

(** The [finally] block of [processQueue] when a running task settles:
    [this.running--]; the [setImmediate] callback is the event
    [Dispatch] below. *)
Definition settle (q : Queue) : Queue :=
  {| maxConcurrent := maxConcurrent q; maxQueueSize := maxQueueSize q;
     running := pred (running q); queue := queue q; stats := stats q |}.

(** What can happen to the queue, each at a reading of the clock. *)
Inductive Event : Type :=
| Add (now : Z) (t : Task)
| Settle
| Dispatch (now : Z).

Definition step (q : Queue) (e : Event) : Queue :=
  match e with
  | Add now t => fst (add now t q)
  | Settle => settle q
  | Dispatch now => fst (processQueue now q)
  end.

Definition run (events : list Event) (q : Queue) : Queue :=
  foldl step q events.

(** The task an event starts, and the task it takes into the queue. *)
Definition startedBy (q : Queue) (e : Event) : list Task :=
  match e with
  | Add now t =>
      match snd (add now t q) with
      | Js.Ok (Some t') => [t']
      | _ => []
      end
  | Settle => []
  | Dispatch now =>
      match snd (processQueue now q) with
      | Some t' => [t']
      | None => []
      end
  end.

Definition acceptedBy (q : Queue) (e : Event) : list Task :=
  match e with
  | Add now t =>
      match snd (add now t q) with
      | Js.Ok _ => [t]
      | Js.Throw _ => []
      end
  | _ => []
  end.

(** The tasks started, and the tasks accepted, over a run, in order. *)
Fixpoint started (events : list Event) (q : Queue) : list Task :=
  match events with
  | [] => []
  | e :: rest => startedBy q e ++ started rest (step q e)
  end.

Fixpoint accepted (events : list Event) (q : Queue) : list Task :=
  match events with
  | [] => []
  | e :: rest => acceptedBy q e ++ accepted rest (step q e)
  end.

(** The queue in the event loop: [immediates] counts the
    [setImmediate(() => this.processQueue())] callbacks that the
    [finally] block has scheduled and that have not run yet. *)
Record Loop : Type := mkLoop {
  state : Queue;
  immediates : nat
}.

(** What the event loop can deliver: a call of [add] at any time; the
    settling of a task only while one runs, which schedules a callback;
    a callback only when one is scheduled. *)
Definition deliver (l : Loop) (e : Event) : option Loop :=
  match e with
  | Add now t => Some {| state := step (state l) e; immediates := immediates l |}
  | Settle =>
      if 0 <? running (state l)
      then Some {| state := settle (state l); immediates := S (immediates l) |}
      else None
  | Dispatch now =>
      match immediates l with
      | 0 => None
      | S n => Some {| state := step (state l) e; immediates := n |}
      end
  end.

Fixpoint deliverAll (events : list Event) (l : Loop) : option Loop :=
  match events with
  | [] => Some l
  | e :: rest =>
      match deliver l e with
      | Some l' => deliverAll rest l'
      | None => None
      end
  end.

End RequestQueue.

Module RateLimit.

Inductive Response : Type :=
| TooManyRequests (retryAfter : Z)   (* status 429 *)
| Next.                              (* next() *)

(** [Math.ceil(windowMs / 1000)] for an integer [windowMs]. *)
Definition retryAfter (windowMs : Z) : Z := (- ((- windowMs) / 1000))%Z.

(** The middleware returned by [rateLimit(windowMs, maxRequests)], on a
    request with [req.ip = ip] at time [now]; [requests] is the map the
    closure holds. *)
Definition rateLimit (windowMs : Z) (maxRequests : nat)
    (requests : gmap string (list Z)) (ip : option string) (now : Z)
  : gmap string (list Z) * Response :=
  let clientId := Js.or_else ip "unknown" in
  let windowStart := (now - windowMs)%Z in
  let requests :=
    match requests !! clientId with
    | Some stamps =>
        <[clientId := filter (λ timestamp, (timestamp > windowStart)%Z) stamps]> requests
    | None => <[clientId := []]> requests
    end in
  let clientRequests := default [] (requests !! clientId) in
  if maxRequests <=? length clientRequests then
    (requests, TooManyRequests (retryAfter windowMs))
  else
    (<[clientId := clientRequests ++ [now]]> requests, Next).

(** A run of the middleware over the requests received, with the
    answers given. *)
Fixpoint serve (windowMs : Z) (maxRequests : nat)
    (requests : gmap string (list Z)) (incoming : list (option string * Z))
  : gmap string (list Z) * list Response :=
  match incoming with
  | [] => (requests, [])
  | (ip, now) :: rest =>
      let (requests', answer) := rateLimit windowMs maxRequests requests ip now in
      let (final, answers) := serve windowMs maxRequests requests' rest in
      (final, answer :: answers)
  end.

(** The timestamps of the requests of [clientId] that were let
    through, in order of arrival. *)
Fixpoint admittedStamps (clientId : string)
    (incoming : list (option string * Z)) (answers : list Response) : list Z :=
  match incoming, answers with
  | (ip, now) :: incoming', answer :: answers' =>
      let later := admittedStamps clientId incoming' answers' in
      match answer with
      | Next =>
          if decide (Js.or_else ip "unknown" = clientId)
          then now :: later else later
      | TooManyRequests _ => later
      end
  | _, _ => []
  end.

(** The requests of one client identity, and the answers given to
    them, in order of arrival. *)
Definition requestsOf (clientId : string)
    (incoming : list (option string * Z)) : list (option string * Z) :=
  filter (λ request, Js.or_else (fst request) "unknown" = clientId) incoming.

Definition answersTo (clientId : string)
    (incoming : list (option string * Z)) (answers : list Response)
  : list Response :=
  snd <$> filter (λ served, Js.or_else (fst (fst served)) "unknown" = clientId)
                 (zip incoming answers).

End RateLimit.

Module Server.
Import TenantAwareAdapter.

(** [values[i]]: [undefined] outside the array. *)
Definition at_index (values : list (option string)) (i : nat) : option string :=
  default None (values !! i).

(** [SELECT COUNT( * ) ...] of [checkDatabaseDuplicate]; the statement is
    [undefined] for any other [ptype], and the query then throws. *)
Definition countQuery (s : Store) (ptype_ : string)
    (values : list (option string)) (tenant : option string) : Js.Result nat :=
  if decide (ptype_ = "p") then
    Js.bind
      (select s (λ r, ptype r = ptype_ ∧ sql_eq (v0 r) (at_index values 0)
                      ∧ sql_eq (v1 r) (at_index values 1)
                      ∧ sql_eq (v2 r) (at_index values 2)
                      ∧ sql_eq (v3 r) tenant))
      (λ rows, Js.Ok (length rows))
  else if decide (ptype_ = "g") then
    Js.bind
      (select s (λ r, ptype r = ptype_ ∧ sql_eq (v0 r) (at_index values 0)
                      ∧ sql_eq (v1 r) (at_index values 1)
                      ∧ sql_eq (v2 r) tenant))
      (λ rows, Js.Ok (length rows))
  else Js.Throw "query is undefined".

(** [checkDatabaseDuplicate(ptype, values, tenant)]; [adapter] is the
    outcome of [getSharedAdapter()]. *)
Definition checkDatabaseDuplicate (dbCheckEnabled : bool)
    (adapter : Js.Result Store) (ptype_ : string)
    (values : list (option string)) (tenant : option string) : bool :=
  if negb dbCheckEnabled then false
  else
    match Js.bind adapter (λ s, countQuery s ptype_ values tenant) with
    | Js.Ok count => 0 <? count
    | Js.Throw _ => false
    end.

Inductive Response : Type :=
| Json (success : bool)
| Status400 (message : string)
| Status500 (error : string).

(** [error.message.includes(needle)] *)
Definition includes (needle message : string) : bool :=
  match String.index 0 needle message with
  | Some _ => true
  | None => false
  end.

Definition show (v : option string) : string := default "undefined" v.

Definition alreadyExists (role obj act tenant : option string) : string :=
  String.concat ""
    ["Permission for role '"; show role; "' on '"; show obj; ":"; show act;
     "' already exists in tenant '"; show tenant; "'"].

(** The [catch] block of the [/add-permission] handler. *)
Definition onError (role obj act tenant : option string) (message : string)
  : Response :=
  if includes "unique_policy" message then
    Status400 (String.append (alreadyExists role obj act tenant)
                             " (database constraint)")
  else Status500 message.

(** The answer of the handler once the pre-check has let the request
    through; [write] is the outcome of the steps that follow it
    ([getTenantEnforcer], [enforcer.addPolicy], [refreshTenantAndNotify]). *)
Definition proceed (role obj act tenant : option string)
    (write : Js.Result bool) : Response :=
  match write with
  | Js.Ok added => Json added
  | Js.Throw message => onError role obj act tenant message
  end.

(** [app.post('/add-permission', ...)] *)
Definition addPermission (dbCheckEnabled : bool) (adapter : Js.Result Store)
    (role obj act tenant : option string) (write : Js.Result bool)
  : Response :=
  let existingPolicy :=
    checkDatabaseDuplicate dbCheckEnabled adapter "p" [role; obj; act] tenant in
  if existingPolicy then
    onError role obj act tenant (alreadyExists role obj act tenant)
  else proceed role obj act tenant write.

End Server.

(** ** tenant-aware-adapter.js: the write methods of the adapter *)

Module AdapterWrites.
Import TenantAwareAdapter.

(** [INSERT INTO casbin_rule ... VALUES ...].  The schema of the table
    is not part of the sources: [uniqueIndex] says whether the table
    refuses a row it already holds (the constraint the handlers look
    for in an error message). *)
Definition insert (uniqueIndex : bool) (s : Store) (row : CasbinRule)
  : Js.Result Store :=
  if available s then
    if uniqueIndex && bool_decide (row ∈ casbin_rule s)
    then Js.Throw "Duplicate entry for key 'unique_policy'"
    else Js.Ok {| available := true; casbin_rule := casbin_rule s ++ [row] |}
  else Js.Throw "store unavailable".

(** [DELETE FROM casbin_rule WHERE <predicate>] *)
Definition delete_where (s : Store) (P : CasbinRule → Prop)
    `{!∀ r, Decision (P r)} : Js.Result Store :=
  if available s then
    Js.Ok {| available := true;
             casbin_rule := filter (λ r, ¬ P r) (casbin_rule s) |}
  else Js.Throw "store unavailable".

(** [for (let i = 0; i < 5; i++) values.push(i < rule.length ? rule[i] : null)] *)
Definition values5 (rule : TenantEnforcerCache.Rule) : list (option string) :=
  (λ i, default None (rule !! i)) <$> seq 0 5.

(** The tenant written over the fourth value of a permission line, the
    third of a grouping line. *)
Definition scoped (tenant : option string) (ptype_ : string)
    (rule : TenantEnforcerCache.Rule) : list (option string) :=
  let values := values5 rule in
  if decide (ptype_ = "p") then <[3 := tenant]> values
  else if decide (ptype_ = "g") then <[2 := tenant]> values
  else values.

Definition value (values : list (option string)) (i : nat) : option string :=
  default None (values !! i).

Definition rowOf (ptype_ : string) (values : list (option string))
  : CasbinRule :=
  {| ptype := ptype_; v0 := value values 0; v1 := value values 1;
     v2 := value values 2; v3 := value values 3; v4 := value values 4 |}.

(** [addPolicy(sec, ptype, rule)] of the adapter. *)
Definition addPolicy (uniqueIndex : bool) (tenant : option string)
    (s : Store) (sec ptype_ : string) (rule : TenantEnforcerCache.Rule)
  : Js.Result Store :=
  if negb (Js.truthy_opt tenant) then
    Js.Throw "Tenant must be set before adding policies"
  else insert uniqueIndex s (rowOf ptype_ (scoped tenant ptype_ rule)).

(** [removePolicy(sec, ptype, rule)] of the adapter: all five value
    columns are compared, as SQL compares them. *)
Definition removePolicy (tenant : option string) (s : Store)
    (sec ptype_ : string) (rule : TenantEnforcerCache.Rule) : Js.Result Store :=
  if negb (Js.truthy_opt tenant) then
    Js.Throw "Tenant must be set before removing policies"
  else
    let values := scoped tenant ptype_ rule in
    delete_where s (λ r, ptype r = ptype_
                         ∧ sql_eq (v0 r) (value values 0)
                         ∧ sql_eq (v1 r) (value values 1)
                         ∧ sql_eq (v2 r) (value values 2)
                         ∧ sql_eq (v3 r) (value values 3)
                         ∧ sql_eq (v4 r) (value values 4)).

(** [for (const policy of policies) { await this.addPolicy(sec, ptype, f(policy)) }] *)
Fixpoint addAll (uniqueIndex : bool) (tenant : option string) (ptype_ : string)
    (rules : list TenantEnforcerCache.Rule) (s : Store) : Js.Result Store :=
  match rules with
  | [] => Js.Ok s
  | rule :: rest =>
      Js.bind (addPolicy uniqueIndex tenant s ptype_ ptype_ rule)
              (addAll uniqueIndex tenant ptype_ rest)
  end.

(** The rows of a tenant, as [savePolicy] deletes them. *)
Definition ownedBy (tenant : option string) (r : CasbinRule) : Prop :=
  (ptype r = "p" ∧ sql_eq (v3 r) tenant) ∨ (ptype r = "g" ∧ sql_eq (v2 r) tenant).

Global Instance ownedBy_dec tenant r : Decision (ownedBy tenant r).
Proof. unfold ownedBy. apply _. Defined.

(** [savePolicy(model)]: the rows of the tenant are deleted, then every
    line of the model is written with the tenant appended (after the
    first two values, for a grouping line).  The store left by a call
    that throws half-way is not given. *)
Definition savePolicy (uniqueIndex : bool) (tenant : option string)
    (s : Store) (model : Model) : Js.Result Store :=
  if negb (Js.truthy_opt tenant) then
    Js.Throw "Tenant must be set before saving policies"
  else
    Js.bind (delete_where s (ownedBy tenant)) (λ s,
    Js.bind (addAll uniqueIndex tenant "p"
               ((λ policy, policy ++ [tenant]) <$> p model) s) (λ s,
      addAll uniqueIndex tenant "g"
        ((λ policy, take 2 policy ++ [tenant]) <$> g model) s)).

End AdapterWrites.

(** ** Concrete states used as examples *)

Module Scenario.
Import TenantEnforcerCache.

(** An enforcer holding [n] permission lines and no grouping line,
    whose listings are arrays, as [estimateEnforcerMemory] reads them. *)
Definition enforcerWith (n : nat) : Enforcer :=
  {| getPolicy :=
       Array ((λ i, [Some "admin"; Some (String.append "doc" (pretty i));
                     Some "read"; Some "t"]) <$> seq 0 n);
     getGroupingPolicy := Array [] |}.

(** Heap at 50%, and heap at 80%: above the 70% line of [cleanup],
    below the 85% line of the specification. *)
Definition calm : MemoryUsage :=
  {| rss := 200; heapUsed := 50; heapTotal := 100; external := 1 |}.

Definition elevated : MemoryUsage :=
  {| rss := 200; heapUsed := 80; heapTotal := 100; external := 1 |}.

(** A cache of capacity 50 holding the tenants [a] and [b]. *)
Definition twoTenants : Cache :=
  run [OpSet 0 calm "a" (enforcerWith 1); OpSet 1 calm "b" (enforcerWith 2)]
      (new 50 0).

(** A cache of capacity 2 that is full. *)
Definition fullCache : Cache :=
  run [OpSet 0 calm "a" (enforcerWith 1); OpSet 1 calm "b" (enforcerWith 2)]
      (new 2 0).

(** A shared table with lines of two tenants. *)
Definition table : list TenantAwareAdapter.CasbinRule :=
  [ TenantAwareAdapter.mkCasbinRule "p" (Some "admin") (Some "doc1") (Some "read") (Some "t1") None;
    TenantAwareAdapter.mkCasbinRule "p" (Some "admin") (Some "doc2") (Some "write") (Some "t2") None;
    TenantAwareAdapter.mkCasbinRule "g" (Some "alice") (Some "admin") (Some "t1") None None;
    TenantAwareAdapter.mkCasbinRule "g" (Some "bob") (Some "admin") (Some "t2") None None ].

Definition storeUp : TenantAwareAdapter.Store :=
  {| TenantAwareAdapter.available := true;
     TenantAwareAdapter.casbin_rule := table |}.

Definition storeDown : TenantAwareAdapter.Store :=
  {| TenantAwareAdapter.available := false;
     TenantAwareAdapter.casbin_rule := table |}.

(** What loading tenant [t1] from [table] puts in the model. *)
Definition modelT1 : TenantAwareAdapter.Model :=
  {| TenantAwareAdapter.p := [[Some "admin"; Some "doc1"; Some "read"; Some "t1"]];
     TenantAwareAdapter.g := [[Some "alice"; Some "admin"; Some "t1"]] |}.

(** A replica started with [SERVER_ID=replica-a] and no [PORT], and a
    message stamped by a peer that runs without [SERVER_ID] on the
    default port. *)
Definition replicaA : Casbin.Env :=
  {| Casbin.SERVER_ID := Some "replica-a"; Casbin.PORT := None |}.

Definition fromPeer : Casbin.RefreshMessage :=
  {| Casbin.tenant := "t1"; Casbin.operation := "add-permission";
     Casbin.serverId := Some "server-3000";
     Casbin.timestamp := "2025-01-01T00:00:00.000Z" |}.

Definition fromReplicaB : Casbin.RefreshMessage :=
  {| Casbin.tenant := "t1"; Casbin.operation := "add-permission";
     Casbin.serverId := Some "replica-b";
     Casbin.timestamp := "2025-01-01T00:00:00.000Z" |}.

(** The table after the adapter of [t1] has added the line
    [editor, doc3, read, t9]: the row carries [t1]. *)
Definition storeAfterAdd : TenantAwareAdapter.Store :=
  {| TenantAwareAdapter.available := true;
     TenantAwareAdapter.casbin_rule :=
       table ++ [TenantAwareAdapter.mkCasbinRule "p" (Some "editor")
                   (Some "doc3") (Some "read") (Some "t1") None] |}.

(** The table after the adapter of [t1] has saved [modelT1]: the rows of
    [t2] first, then the lines of the model, the permission line with
    the tenant once more in the fifth column. *)
Definition storeAfterSave : TenantAwareAdapter.Store :=
  {| TenantAwareAdapter.available := true;
     TenantAwareAdapter.casbin_rule :=
       [ TenantAwareAdapter.mkCasbinRule "p" (Some "admin") (Some "doc2") (Some "write") (Some "t2") None;
         TenantAwareAdapter.mkCasbinRule "g" (Some "bob") (Some "admin") (Some "t2") None None;
         TenantAwareAdapter.mkCasbinRule "p" (Some "admin") (Some "doc1") (Some "read") (Some "t1") (Some "t1");
         TenantAwareAdapter.mkCasbinRule "g" (Some "alice") (Some "admin") (Some "t1") None None ] |}.

(** A full cache of capacity 2 in which [a], inserted first, was used
    last: the history ends with a hit on [a]. *)
Definition usedOps : list Op :=
  [ OpSet 0 calm "a" (enforcerWith 1); OpSet 1 calm "b" (enforcerWith 2);
    OpGet 2 calm "a" ].

(** A table with one row of tenant [t1] that has no object: its fifth
    column holds the name of another tenant. *)
Definition storeShifted : TenantAwareAdapter.Store :=
  {| TenantAwareAdapter.available := true;
     TenantAwareAdapter.casbin_rule :=
       [ TenantAwareAdapter.mkCasbinRule "p" (Some "admin") None (Some "read")
           (Some "t1") (Some "t2") ] |}.

(** A model with two permission lines that differ in the fourth value
    only. *)
Definition modelTwice : TenantAwareAdapter.Model :=
  {| TenantAwareAdapter.p :=
       [ [Some "admin"; Some "doc1"; Some "read"; Some "t1"];
         [Some "admin"; Some "doc1"; Some "read"; Some "t9"] ];
     TenantAwareAdapter.g := [] |}.

(** The table after the adapter of [t1] has saved [modelTwice] on a
    table without a unique index: both lines are written as the same
    row. *)
Definition storeAfterSaveTwice : TenantAwareAdapter.Store :=
  {| TenantAwareAdapter.available := true;
     TenantAwareAdapter.casbin_rule :=
       [ TenantAwareAdapter.mkCasbinRule "p" (Some "admin") (Some "doc2") (Some "write") (Some "t2") None;
         TenantAwareAdapter.mkCasbinRule "g" (Some "bob") (Some "admin") (Some "t2") None None;
         TenantAwareAdapter.mkCasbinRule "p" (Some "admin") (Some "doc1") (Some "read") (Some "t1") (Some "t1");
         TenantAwareAdapter.mkCasbinRule "p" (Some "admin") (Some "doc1") (Some "read") (Some "t1") (Some "t1") ] |}.

(** Two clients, one of them without an address, within one minute. *)
Definition traffic : list (option string * Z) :=
  [ (Some "10.0.0.1", 1000%Z); (None, 1500%Z); (Some "10.0.0.1", 2000%Z);
    (Some "", 2500%Z); (Some "10.0.0.1", 3000%Z); (None, 3500%Z) ].

(** One task runs and one waits; the first settles and the callback of
    its [finally] block has not run yet. *)
Definition settling : list RequestQueue.Event :=
  [ RequestQueue.Add 10 1; RequestQueue.Add 20 2; RequestQueue.Settle ].

End Scenario.

(** * Properties *)

(** ** Arithmetic of the eviction count *)

Example floor_mul_0_7_10 : Js.floor_mul_0_7 10 = 7%Z.
Proof. reflexivity. Qed.

Example floor_mul_0_7_90 : Js.floor_mul_0_7 90 = 62%Z.
Proof. reflexivity. Qed.

(** Among the sizes below two hundred, the rounded product falls short
    of the exact seven tenths at 90, 170 and 180 only. *)
Example floor_mul_0_7_short :
  filter (λ n, Js.floor_mul_0_7 (Z.of_nat n) ≠ (7 * Z.of_nat n / 10)%Z)
         (seq 0 200)
  = [90; 170; 180].
Proof. by vm_compute. Qed.

(** Below ninety entries the rounded product floors to the exact seven
    tenths. *)
Lemma floor_mul_0_7_exact (n : nat) :
  n < 90 → Js.floor_mul_0_7 (Z.of_nat n) = (7 * Z.of_nat n / 10)%Z.
Proof.
  intros Hn.
  assert (Hall : forallb
            (λ k, (Js.floor_mul_0_7 (Z.of_nat k) =? 7 * Z.of_nat k / 10)%Z)
            (seq 0 90) = true) by (vm_compute; reflexivity).
  rewrite forallb_forall in Hall.
  apply Z.eqb_eq, Hall, in_seq. lia.
Qed.

(** ** The cache: representation invariant *)

Section CacheInvariant.
Import TenantEnforcerCache.

Lemma WF_new maxSize now : WF (new maxSize now).
Proof.
  split; simpl; [constructor | apply dom_empty_L | constructor |].
  by rewrite !dom_empty_L.
Qed.

Lemma WF_size c : WF c → base.size (cache c) = length (accessOrder c).
Proof.
  intros [Hnd Hdom _ _].
  rewrite <- size_dom, Hdom. by apply size_list_to_set.
Qed.

Lemma filter_ne_notin (t : string) (l : list string) :
  t ∉ l → filter (λ x, x ≠ t) l = l.
Proof.
  induction l as [|a l IH]; intros Hnot; [done|].
  apply not_elem_of_cons in Hnot as [Hne Hnot].
  rewrite filter_cons_True by congruence. by rewrite IH.
Qed.

Lemma list_to_set_filter_ne (t : string) (l : list string) :
  (list_to_set (filter (λ x, x ≠ t) l) : gset string)
  = list_to_set l ∖ {[t]}.
Proof.
  apply set_eq. intros x.
  rewrite elem_of_list_to_set, list_elem_of_filter, elem_of_difference,
    elem_of_list_to_set, elem_of_singleton. tauto.
Qed.

Lemma WF_evictTenant t c : WF c → WF (evictTenant t c).
Proof.
  intros [Hnd Hdom Htr Hmem]. split; simpl.
  - by apply NoDup_filter.
  - rewrite dom_delete_L, Hdom. by rewrite list_to_set_filter_ne.
  - apply Forall_forall. intros x [_ Hx]%list_elem_of_filter.
    by eapply Forall_forall in Htr.
  - by rewrite !dom_delete_L, Hmem.
Qed.

(** On a well-formed cache one round of the eviction loop removes the
    head of the access order, and nothing else. *)
Lemma evictLru_cons c lru rest :
  WF c → accessOrder c = lru :: rest →
  evictLru c =
    {| maxSize := maxSize c;
       cache := base.delete lru (cache c);
       accessOrder := rest;
       memoryUsage := base.delete lru (memoryUsage c);
       lastCleanup := lastCleanup c;
       cleanupInterval := cleanupInterval c |}.
Proof.
  intros [Hnd _ Htr _] Hao. unfold evictLru. rewrite Hao.
  rewrite Hao in Hnd, Htr.
  apply NoDup_cons in Hnd as [Hnot _].
  apply Forall_cons in Htr as [Hlru _]. rewrite Hlru.
  unfold evictTenant; simpl. by rewrite filter_ne_notin.
Qed.

Lemma WF_evictLru c : WF c → WF (evictLru c).
Proof.
  intros Hwf. destruct (accessOrder c) as [|lru rest] eqn:Hao.
  - unfold evictLru. by rewrite Hao.
  - rewrite (evictLru_cons c lru rest Hwf Hao).
    destruct Hwf as [Hnd Hdom Htr Hmem].
    rewrite Hao in Hnd, Hdom, Htr.
    apply NoDup_cons in Hnd as [Hnot Hnd].
    apply Forall_cons in Htr as [_ Htr].
    split; simpl; [done| |done|by rewrite !dom_delete_L, Hmem].
    rewrite dom_delete_L, Hdom. simpl.
    apply set_eq. intros x.
    rewrite elem_of_difference, elem_of_union, elem_of_singleton,
      elem_of_list_to_set.
    split; [tauto|]. intros Hx. split; [by right|]. by intros ->.
Qed.

Lemma WF_evictLoop n c : WF c → WF (evictLoop n c).
Proof.
  revert c. induction n as [|n IH]; intros c Hwf; simpl; [done|].
  by apply IH, WF_evictLru.
Qed.

Lemma maxSize_evictLru c : maxSize (evictLru c) = maxSize c.
Proof.
  unfold evictLru. destruct (accessOrder c); [done|].
  by destruct (Js.truthy _).
Qed.

Lemma maxSize_evictLoop n c : maxSize (evictLoop n c) = maxSize c.
Proof.
  revert c. induction n as [|n IH]; intros c; simpl; [done|].
  by rewrite IH, maxSize_evictLru.
Qed.

Lemma evictLoop_nil n c : accessOrder c = [] → evictLoop n c = c.
Proof.
  intros Hao. induction n as [|n IH]; simpl; [done|].
  unfold evictLru. by rewrite Hao.
Qed.

Lemma accessOrder_evictLoop n c :
  WF c → accessOrder (evictLoop n c) = drop n (accessOrder c).
Proof.
  revert c. induction n as [|n IH]; intros c Hwf; [done|].
  destruct (accessOrder c) as [|lru rest] eqn:Hao.
  - by rewrite evictLoop_nil, Hao.
  - simpl. rewrite IH by by apply WF_evictLru.
    by rewrite (evictLru_cons c lru rest Hwf Hao).
Qed.

Lemma lookup_evicted {A : Type} (l : list string) (m : gmap string A) t :
  evicted l m !! t = if decide (t ∈ l) then None else m !! t.
Proof.
  unfold evicted. revert m. induction l as [|a l IH]; intros m; simpl.
  - destruct (decide (t ∈ [])) as [H|_]; [by apply elem_of_nil in H|done].
  - rewrite IH. destruct (decide (t = a)) as [->|Hne].
    + rewrite lookup_delete_eq.
      rewrite (decide_True (P := a ∈ a :: l)) by left.
      by destruct (decide (a ∈ l)).
    + rewrite lookup_delete_ne by done.
      destruct (decide (t ∈ l)) as [Hin|Hnin].
      * by rewrite decide_True by by right.
      * rewrite decide_False; [done|].
        intros [?|?]%elem_of_cons; done.
Qed.

(** On a well-formed cache the eviction loop removes the first
    [n] tenants of the access order, and nothing else. *)
Lemma evictLoop_take n c :
  WF c →
  evictLoop n c =
    {| maxSize := maxSize c;
       cache := evicted (take n (accessOrder c)) (cache c);
       accessOrder := drop n (accessOrder c);
       memoryUsage := evicted (take n (accessOrder c)) (memoryUsage c);
       lastCleanup := lastCleanup c;
       cleanupInterval := cleanupInterval c |}.
Proof.
  revert c. induction n as [|n IH]; intros c Hwf.
  - by destruct c.
  - destruct (accessOrder c) as [|lru rest] eqn:Hao.
    + rewrite evictLoop_nil by done. destruct c; simpl in *. by subst.
    + simpl. rewrite IH by by apply WF_evictLru.
      by rewrite (evictLru_cons c lru rest Hwf Hao).
Qed.

Lemma size_evictLoop n c :
  WF c → base.size (cache (evictLoop n c)) = base.size (cache c) - n.
Proof.
  intros Hwf.
  rewrite (WF_size _ (WF_evictLoop n c Hwf)), accessOrder_evictLoop by done.
  by rewrite length_drop, WF_size.
Qed.

Lemma WF_with_lastCleanup now c : WF c → WF (with_lastCleanup now c).
Proof. by intros [? ? ? ?]. Qed.

(** A cleanup pass either returns at once or runs the eviction loop
    some number of times and stamps the clock. *)
Lemma cleanup_cases now mem c :
  cleanup now mem c = c
  ∨ ∃ n, cleanup now mem c = with_lastCleanup now (evictLoop n c).
Proof.
  unfold cleanup. destruct (_ <? _)%Z; [by left|]. right.
  destruct (shouldAggressiveEvict mem); [by eexists|].
  destruct (_ <? _); [by eexists|by exists 0].
Qed.

Lemma WF_cleanup now mem c : WF c → WF (cleanup now mem c).
Proof.
  intros Hwf. destruct (cleanup_cases now mem c) as [->|[n ->]]; [done|].
  by apply WF_with_lastCleanup, WF_evictLoop.
Qed.

Lemma maxSize_cleanup now mem c : maxSize (cleanup now mem c) = maxSize c.
Proof.
  destruct (cleanup_cases now mem c) as [->|[n ->]]; [done|].
  simpl. apply maxSize_evictLoop.
Qed.

(** A cleanup pass never adds an entry. *)
Lemma size_cleanup now mem c :
  WF c → base.size (cache (cleanup now mem c)) ≤ base.size (cache c).
Proof.
  intros Hwf. destruct (cleanup_cases now mem c) as [->|[n ->]]; [done|].
  simpl. rewrite size_evictLoop by done. lia.
Qed.

Lemma NoDup_touch t (l : list string) : NoDup l → NoDup (touch t l).
Proof.
  intros Hnd. unfold touch. apply NoDup_app. split; [by apply NoDup_filter|].
  split; [|apply NoDup_singleton].
  intros x [Hne _]%list_elem_of_filter ->%list_elem_of_singleton. done.
Qed.

Lemma list_to_set_touch t (l : list string) :
  (list_to_set (touch t l) : gset string) = {[t]} ∪ list_to_set l.
Proof.
  unfold touch. rewrite list_to_set_app_L, list_to_set_filter_ne. simpl.
  apply set_eq. intros x.
  rewrite !elem_of_union, elem_of_difference, !elem_of_singleton,
    elem_of_empty.
  destruct (decide (x = t)); tauto.
Qed.

Lemma Forall_touch (P : string → Prop) t (l : list string) :
  Forall P l → P t → Forall P (touch t l).
Proof.
  intros Hl Ht. unfold touch. apply Forall_app. split; [|by constructor].
  apply Forall_forall. intros x [_ Hx]%list_elem_of_filter.
  by eapply Forall_forall in Hl.
Qed.

Lemma WF_cached_truthy c t :
  WF c → is_Some (cache c !! t) → Js.truthy t = true.
Proof.
  intros [_ Hdom Htr _] Hin.
  apply elem_of_dom in Hin. rewrite Hdom, elem_of_list_to_set in Hin.
  by eapply Forall_forall in Htr.
Qed.

Lemma WF_get now mem t c : WF c → WF (fst (get now mem t c)).
Proof.
  intros Hwf. unfold get.
  pose proof (WF_cleanup now mem c Hwf) as Hwf'.
  destruct (cache (cleanup now mem c) !! t) as [e|] eqn:Hlook; [|done].
  pose proof (WF_cached_truthy _ t Hwf' (mk_is_Some _ _ Hlook)) as Htruthy.
  destruct Hwf' as [Hnd Hdom Htr Hmem]. split; simpl.
  - by apply NoDup_touch.
  - rewrite list_to_set_touch, <- Hdom. symmetry.
    apply subseteq_union_1_L, singleton_subseteq_l.
    by apply elem_of_dom_2 in Hlook.
  - by apply Forall_touch.
  - done.
Qed.

Lemma size_get now mem t c :
  WF c → base.size (cache (fst (get now mem t c))) ≤ base.size (cache c).
Proof.
  intros Hwf. unfold get.
  destruct (cache (cleanup now mem c) !! t); simpl; by apply size_cleanup.
Qed.

Lemma WF_set now mem t e c :
  WF c → Js.truthy t = true → WF (set now mem t e c).
Proof.
  intros Hwf Htruthy. unfold set.
  pose proof (WF_cleanup now mem c Hwf) as Hwf'.
  destruct (cache (cleanup now mem c) !! t) as [old|] eqn:Hlook.
  - destruct Hwf' as [Hnd Hdom Htr Hmem]. split; simpl.
    + by apply NoDup_touch.
    + rewrite dom_insert_L, list_to_set_touch. by rewrite Hdom.
    + by apply Forall_touch.
    + rewrite dom_insert_L, Hmem. symmetry.
      apply subseteq_union_1_L, singleton_subseteq_l.
      by apply elem_of_dom_2 in Hlook.
  - set (c2 := if maxSize _ <=? _ then _ else _).
    assert (Hwf2 : WF c2) by (subst c2; destruct (_ <=? _);
                               [by apply WF_evictLru|done]).
    assert (Hnone : cache c2 !! t = None).
    { subst c2. destruct (_ <=? _); [|done].
      destruct (accessOrder (cleanup now mem c)) as [|lru rest] eqn:Hao.
      - unfold evictLru. by rewrite Hao.
      - rewrite (evictLru_cons _ lru rest Hwf' Hao). simpl.
        destruct (decide (t = lru)) as [->|Hne];
          [apply lookup_delete_eq | by rewrite lookup_delete_ne]. }
    destruct Hwf2 as [Hnd Hdom Htr Hmem].
    assert (Hnotin : t ∉ accessOrder c2).
    { rewrite <- (elem_of_list_to_set (C := gset string)), <- Hdom.
      by apply not_elem_of_dom. }
    split; simpl.
    + apply NoDup_app. split; [done|]. split; [|apply NoDup_singleton].
      intros x Hx ->%list_elem_of_singleton. done.
    + rewrite dom_insert_L, list_to_set_app_L, Hdom. simpl.
      rewrite (right_id_L ∅ (∪)). apply (comm_L (∪)).
    + apply Forall_app. split; [done|by constructor].
    + by rewrite !dom_insert_L, Hmem.
Qed.

(** With room for at least one entry, [set] keeps the cache within
    its capacity. *)
Lemma size_set now mem t e c :
  WF c → 0 < maxSize c → base.size (cache c) ≤ maxSize c →
  base.size (cache (set now mem t e c)) ≤ maxSize c.
Proof.
  intros Hwf Hpos Hbound. unfold set.
  pose proof (WF_cleanup now mem c Hwf) as Hwf'.
  pose proof (size_cleanup now mem c Hwf) as Hsize.
  pose proof (maxSize_cleanup now mem c) as Hmax.
  destruct (cache (cleanup now mem c) !! t) as [old|] eqn:Hlook; simpl.
  - rewrite map_size_insert_Some by done. lia.
  - destruct (maxSize (cleanup now mem c) <=? base.size (cache (cleanup now mem c)))
      eqn:Hfull.
    + apply Nat.leb_le in Hfull.
      destruct (accessOrder (cleanup now mem c)) as [|lru rest] eqn:Hao.
      { pose proof (WF_size _ Hwf') as Hlen. rewrite Hao in Hlen.
        simpl in Hlen. lia. }
      rewrite (evictLru_cons _ lru rest Hwf' Hao). simpl.
      assert (Hin : is_Some (cache (cleanup now mem c) !! lru)).
      { apply elem_of_dom. rewrite (wf_dom _ Hwf'), Hao.
        apply elem_of_list_to_set. left. }
      destruct Hin as [x Hx].
      rewrite map_size_insert_None.
      * rewrite map_size_delete_Some by done. lia.
      * destruct (decide (t = lru)) as [->|Hne];
          [apply lookup_delete_eq | by rewrite lookup_delete_ne].
    + apply Nat.leb_gt in Hfull.
      rewrite map_size_insert_None by done. lia.
Qed.

Lemma maxSize_set now mem t e c : maxSize (set now mem t e c) = maxSize c.
Proof.
  unfold set. destruct (cache (cleanup now mem c) !! t); simpl.
  - apply maxSize_cleanup.
  - destruct (_ <=? _); [rewrite maxSize_evictLru|]; apply maxSize_cleanup.
Qed.

Lemma maxSize_get now mem t c : maxSize (fst (get now mem t c)) = maxSize c.
Proof.
  unfold get. destruct (cache (cleanup now mem c) !! t); simpl;
    apply maxSize_cleanup.
Qed.

Lemma size_delete t c :
  base.size (cache (delete t c)) ≤ base.size (cache c).
Proof.
  unfold delete, evictTenant; simpl.
  destruct (cache c !! t) eqn:Hlook.
  - rewrite map_size_delete_Some by done. lia.
  - by rewrite delete_id.
Qed.

(** Every operation with a truthy tenant keeps the invariant and the
    capacity bound. *)
Lemma apply_invariant c op :
  WF c → 0 < maxSize c → base.size (cache c) ≤ maxSize c → validOp op →
  WF (apply c op) ∧ maxSize (apply c op) = maxSize c
  ∧ base.size (cache (apply c op)) ≤ maxSize c.
Proof.
  intros Hwf Hpos Hbound Hvalid. destruct op as [now mem t|now mem t e|t]; simpl.
  - split; [by apply WF_get|]. split; [apply maxSize_get|].
    pose proof (size_get now mem t c Hwf). lia.
  - split; [by apply WF_set|]. split; [apply maxSize_set|].
    by apply size_set.
  - split; [by apply WF_evictTenant|]. split; [done|].
    pose proof (size_delete t c) as Hd.
    unfold delete, evictTenant in Hd. simpl in Hd. lia.
Qed.

Lemma run_invariant ops c :
  WF c → 0 < maxSize c → base.size (cache c) ≤ maxSize c →
  Forall validOp ops →
  WF (run ops c) ∧ maxSize (run ops c) = maxSize c
  ∧ base.size (cache (run ops c)) ≤ maxSize c.
Proof.
  revert c. induction ops as [|op ops IH]; intros c Hwf Hpos Hbound Hvalid.
  - unfold run; simpl. auto.
  - apply Forall_cons in Hvalid as [Hop Hops].
    destruct (apply_invariant c op Hwf Hpos Hbound Hop) as (Hwf' & Hmax & Hsz).
    destruct (IH (apply c op)) as (? & ? & ?); [done|lia|lia|done|].
    unfold run in *; simpl. split; [done|]. split; [congruence|lia].
Qed.

End CacheInvariant.

(** ** The cache: eviction policy, capacity and memory accounting *)

Section CacheClaims.
Import TenantEnforcerCache.

Lemma WF_run ops maxSize now0 :
  Forall validOp ops → 0 < maxSize → WF (run ops (new maxSize now0)).
Proof.
  intros Hvalid Hpos.
  apply (run_invariant ops (new maxSize now0)); simpl;
    [apply WF_new | done | rewrite map_size_empty; lia | done].
Qed.

(** C2, as the code has it.  When [cleanup] runs past its rate-limit
    interval on a well-formed cache, it evicts the first [evictCount]
    tenants of the access order (the least recently used ones), from the
    cache and from the memory accounting, and stamps the clock:
    with heap usage above 70% the count is [Math.floor(size * 0.7)],
    whatever the capacity headroom (and that is seven tenths of the
    size, rounded down, below ninety entries); at or below 70% it is
    the overflow beyond [maxSize]. *)
Theorem cleanup_two_tier now mem c :
  WF c → (0 < heapTotal mem)%Z →
  (cleanupInterval c ≤ now - lastCleanup c)%Z →
  let size := base.size (cache c) in
  let evictCount :=
    if decide (70 * heapTotal mem < heapUsed mem * 100)%Z
    then Z.to_nat (Js.floor_mul_0_7 (Z.of_nat size))
    else size - maxSize c in
  cleanup now mem c =
    {| maxSize := maxSize c;
       cache := evicted (take evictCount (accessOrder c)) (cache c);
       accessOrder := drop evictCount (accessOrder c);
       memoryUsage := evicted (take evictCount (accessOrder c)) (memoryUsage c);
       lastCleanup := now;
       cleanupInterval := cleanupInterval c |}
  ∧ base.size (cache (cleanup now mem c)) = size - evictCount
  ∧ (size < 90 →
     Js.floor_mul_0_7 (Z.of_nat size) = (7 * Z.of_nat size / 10)%Z).
Proof.
  intros Hwf Htotal Hdue size evictCount.
  assert (Heq : cleanup now mem c =
                with_lastCleanup now (evictLoop evictCount c)).
  { unfold cleanup.
    destruct (now - lastCleanup c <? cleanupInterval c)%Z eqn:Hearly;
      [apply Z.ltb_lt in Hearly; lia|].
    f_equal. subst evictCount size.
    unfold shouldAggressiveEvict, heapUsagePercent_gt.
    destruct (heapTotal mem =? 0)%Z eqn:Hz; [apply Z.eqb_eq in Hz; lia|].
    destruct (0 <? heapTotal mem)%Z eqn:Hp; [|apply Z.ltb_ge in Hp; lia].
    destruct (70 * heapTotal mem <? heapUsed mem * 100)%Z eqn:Hheap.
    - apply Z.ltb_lt in Hheap. by rewrite decide_True.
    - apply Z.ltb_ge in Hheap. rewrite decide_False by lia.
      destruct (maxSize c <? base.size (cache c)) eqn:Hover; [done|].
      apply Nat.ltb_ge in Hover.
      by replace (base.size (cache c) - maxSize c) with 0 by lia. }
  split; [|split].
  - rewrite Heq, evictLoop_take by done. done.
  - rewrite Heq. simpl. by rewrite size_evictLoop.
  - apply floor_mul_0_7_exact.
Qed.

(** The two-tier policy at work: heap at 80%, two entries, one evicted. *)
Lemma cleanup_two_tier_witness :
  WF Scenario.twoTenants
  ∧ (0 < heapTotal Scenario.elevated)%Z
  ∧ (cleanupInterval Scenario.twoTenants
     ≤ 30000 - lastCleanup Scenario.twoTenants)%Z
  ∧ base.size (cache (cleanup 30000 Scenario.elevated Scenario.twoTenants)) = 1.
Proof.
  assert (Hwf : WF Scenario.twoTenants)
    by (apply WF_run; [repeat constructor|lia]).
  assert (Htotal : (0 < heapTotal Scenario.elevated)%Z) by reflexivity.
  assert (Hdue : (cleanupInterval Scenario.twoTenants
                  ≤ 30000 - lastCleanup Scenario.twoTenants)%Z)
    by (vm_compute; discriminate).
  refine (conj Hwf (conj Htotal (conj Hdue _))).
  exact (proj1 (proj2 (cleanup_two_tier 30000 Scenario.elevated
                         Scenario.twoTenants Hwf Htotal Hdue))).
Defined.

(** C2, as the specification states it, fails: with heap usage at 80%
    (below the critical line of 85%) and two entries in a cache of
    capacity 50, there is no overflow to evict, and yet [cleanup]
    evicts the least recently used tenant. *)
Lemma cleanup_below_critical_still_aggressive :
  let c := Scenario.twoTenants in
  let mem := Scenario.elevated in
  (heapUsed mem * 100 ≤ 85 * heapTotal mem)%Z
  ∧ base.size (cache c) ≤ maxSize c
  ∧ (cleanupInterval c ≤ 30000 - lastCleanup c)%Z
  ∧ cache c !! "a" = Some (Scenario.enforcerWith 1)
  ∧ cache (cleanup 30000 mem c) !! "a" = None
  ∧ base.size (cache (cleanup 30000 mem c)) = 1.
Proof. vm_compute. repeat split; try discriminate; lia. Qed.

Lemma lookup_set now mem t e c : cache (set now mem t e c) !! t = Some e.
Proof.
  unfold set. destruct (cache (cleanup now mem c) !! t); simpl;
    apply lookup_insert_eq.
Qed.

(** The state reached from the empty cache by valid calls is
    well-formed, whatever the capacity. *)
Lemma WF_reachable ops capacity now0 :
  Forall validOp ops → WF (run ops (new capacity now0)).
Proof.
  intros Hvalid. unfold run.
  assert (Hgen : ∀ c, WF c → WF (foldl apply c ops)).
  { induction Hvalid as [|op ops Hop _ IH]; intros c Hwf; [done|].
    simpl. apply IH.
    destruct op as [now mem t|now mem t e|t]; simpl;
      [by apply WF_get | by apply WF_set | by apply WF_evictTenant]. }
  apply Hgen, WF_new.
Qed.

(** *** Recency: the access order against the history of calls *)

Lemma run_snoc ops op c : run (ops ++ [op]) c = apply (run ops c) op.
Proof. unfold run. by rewrite foldl_app. Qed.

Lemma lastUseFrom_snoc ops : ∀ k last c op t,
  lastUseFrom k last c (ops ++ [op]) t
  = if usesTenant (run ops c) op t then S (k + length ops)
    else lastUseFrom k last c ops t.
Proof.
  induction ops as [|op0 ops IH]; intros k last c op t; simpl.
  - by rewrite Nat.add_0_r.
  - rewrite IH. replace (S k + length ops) with (k + S (length ops)) by lia.
    done.
Qed.

Lemma lastUseFrom_le ops : ∀ k last c t,
  last ≤ k → lastUseFrom k last c ops t ≤ k + length ops.
Proof.
  induction ops as [|op ops IH]; intros k last c t Hlast; simpl; [lia|].
  etrans; [apply IH|lia]. destruct (usesTenant c op t); lia.
Qed.

(** A part of a list sorted by one measure is sorted by any measure
    that agrees with it on that part. *)
Lemma StronglySorted_sublist_measure (f g : string → nat) (l k : list string) :
  k `sublist_of` l → (∀ a, a ∈ k → g a = f a) →
  StronglySorted (λ a b, f a < f b) l → StronglySorted (λ a b, g a < g b) k.
Proof.
  intros Hsub. induction Hsub as [|x k l Hsub IH|x k l Hsub IH];
    intros Hagree Hsorted.
  - constructor.
  - apply StronglySorted_inv in Hsorted as [Hsorted Hall].
    constructor.
    + apply IH; [|done]. intros a Ha. apply Hagree. by right.
    + rewrite Forall_forall in Hall. apply Forall_forall. intros b Hb.
      rewrite (Hagree x) by left. rewrite (Hagree b) by by right.
      apply Hall. by eapply elem_of_sublist.
  - apply StronglySorted_inv in Hsorted as [Hsorted _]. by apply IH.
Qed.

Lemma cleanup_order_sublist now mem c :
  WF c → accessOrder (cleanup now mem c) `sublist_of` accessOrder c.
Proof.
  intros Hwf. destruct (cleanup_cases now mem c) as [->|[n ->]]; [done|].
  simpl. rewrite accessOrder_evictLoop by done. apply sublist_drop.
Qed.

Lemma evictLru_order_sublist c :
  accessOrder (evictLru c) `sublist_of` accessOrder c.
Proof.
  unfold evictLru. destruct (accessOrder c) as [|lru rest] eqn:Hao.
  - by rewrite Hao.
  - apply sublist_cons. destruct (Js.truthy lru); simpl; [|done].
    apply sublist_filter.
Qed.

(** What a call does to the access order: a call that uses a tenant
    leaves the tenant at the tail, behind tenants that were listed
    before, in their order; a call that uses none only removes. *)
Lemma apply_order c op :
  WF c →
  (∃ rest t,
      accessOrder (apply c op) = rest ++ [t]
      ∧ rest `sublist_of` accessOrder c ∧ (t ∉ rest)
      ∧ ∀ a, usesTenant c op a = bool_decide (t = a))
  ∨ (accessOrder (apply c op) `sublist_of` accessOrder c
     ∧ ∀ a, usesTenant c op a = false).
Proof.
  intros Hwf. destruct op as [now mem t|now mem t e|t]; simpl.
  - pose proof (cleanup_order_sublist now mem c Hwf) as Hsub.
    unfold get.
    destruct (cache (cleanup now mem c) !! t) as [e|] eqn:Hlook; simpl.
    + left. exists (filter (λ x, x ≠ t) (accessOrder (cleanup now mem c))), t.
      split; [done|]. split; [etrans; [apply sublist_filter|done]|].
      split; [rewrite list_elem_of_filter; tauto|].
      intros a. apply andb_true_r.
    + right. split; [done|]. intros a. apply andb_false_r.
  - pose proof (cleanup_order_sublist now mem c Hwf) as Hsub.
    pose proof (WF_cleanup now mem c Hwf) as Hwf1.
    left. unfold set.
    destruct (cache (cleanup now mem c) !! t) as [old|] eqn:Hlook; simpl.
    + exists (filter (λ x, x ≠ t) (accessOrder (cleanup now mem c))), t.
      split; [done|]. split; [etrans; [apply sublist_filter|done]|].
      split; [rewrite list_elem_of_filter; tauto|done].
    + eexists _, t. split; [done|].
      assert (Hnot : t ∉ accessOrder (cleanup now mem c)).
      { rewrite <- (elem_of_list_to_set (C := gset string)), <- (wf_dom _ Hwf1).
        by apply not_elem_of_dom. }
      assert (Hsub2 : accessOrder
                (if maxSize (cleanup now mem c)
                    <=? base.size (cache (cleanup now mem c))
                 then evictLru (cleanup now mem c) else cleanup now mem c)
                `sublist_of` accessOrder (cleanup now mem c)).
      { destruct (_ <=? _); [apply evictLru_order_sublist|done]. }
      split; [by etrans|]. split; [|done].
      intros Hin. apply Hnot. by eapply elem_of_sublist.
  - right. split; [apply sublist_filter|done].
Qed.

(** The access order lists the tenants from the least recently used
    to the most recently used one: the later a tenant stands, the later
    the last call that used it. *)
Lemma recency_invariant capacity now0 ops :
  Forall validOp ops →
  StronglySorted (λ a b, lastUse capacity now0 ops a < lastUse capacity now0 ops b)
                 (accessOrder (run ops (new capacity now0)))
  ∧ Forall (λ a, 0 < lastUse capacity now0 ops a)
           (accessOrder (run ops (new capacity now0))).
Proof.
  induction ops as [|op ops IH] using rev_ind; intros Hvalid.
  - split; constructor.
  - apply Forall_app in Hvalid as [Hvalid _].
    destruct (IH Hvalid) as [Hsorted Hused]. clear IH.
    pose proof (WF_reachable ops capacity now0 Hvalid) as Hwf.
    rewrite run_snoc.
    assert (Hlast : ∀ a, lastUse capacity now0 (ops ++ [op]) a
              = if usesTenant (run ops (new capacity now0)) op a
                then S (length ops) else lastUse capacity now0 ops a).
    { intros a. unfold lastUse. by rewrite lastUseFrom_snoc. }
    assert (Hle : ∀ a, lastUse capacity now0 ops a ≤ length ops).
    { intros a. unfold lastUse.
      by pose proof (lastUseFrom_le ops 0 0 (new capacity now0) a (le_n 0)). }
    rewrite Forall_forall in Hused.
    destruct (apply_order (run ops (new capacity now0)) op Hwf)
      as [(rest & t & -> & Hsub & Hnot & Huse)|[Hsub Huse]].
    + assert (Hrest : ∀ a, a ∈ rest →
                lastUse capacity now0 (ops ++ [op]) a = lastUse capacity now0 ops a).
      { intros a Ha. rewrite Hlast, Huse, bool_decide_eq_false_2; [done|].
        by intros ->. }
      assert (Ht : lastUse capacity now0 (ops ++ [op]) t = S (length ops)).
      { by rewrite Hlast, Huse, bool_decide_eq_true_2. }
      split.
      * apply StronglySorted_app_2.
        -- intros a b Ha ->%list_elem_of_singleton.
           rewrite (Hrest a Ha), Ht. specialize (Hle a). lia.
        -- by eapply StronglySorted_sublist_measure.
        -- repeat constructor.
      * apply Forall_app. split; [|constructor; [lia|constructor]].
        apply Forall_forall. intros a Ha. rewrite (Hrest a Ha).
        apply Hused. by eapply elem_of_sublist.
    + assert (Hsame : ∀ a, lastUse capacity now0 (ops ++ [op]) a
                           = lastUse capacity now0 ops a).
      { intros a. by rewrite Hlast, Huse. }
      split.
      * eapply StronglySorted_sublist_measure; [exact Hsub| |exact Hsorted].
        intros a _. apply Hsame.
      * apply Forall_forall. intros a Ha. rewrite Hsame.
        apply Hused. by eapply elem_of_sublist.
Qed.

(** C3.  Starting from the empty cache with room for at least one
    entry, after every sequence of [get]/[set]/[delete] calls on truthy
    tenant identifiers the number of cached entries is at most
    [maxSize], and the access order lists the cached tenants by
    recency of use: a tenant stands before another exactly when the
    last call that used it ([set], or a [get] that found it) came
    earlier in the history.  A [set] of a new tenant that finds the
    cache at capacity (once its own cleanup pass is done) evicts the
    head of the access order, which is therefore the least recently
    used of the cached tenants, and then adds the new entry at the
    tail. *)
Theorem cache_capacity_bound (capacity : nat) (now0 : Z) (ops : list Op) :
  0 < capacity → Forall validOp ops →
  let c := run ops (new capacity now0) in
  let used := lastUse capacity now0 ops in
  size c ≤ capacity
  ∧ StronglySorted (λ a b, used a < used b) (accessOrder c)
  ∧ ∀ now mem tenant enforcer,
      let c1 := cleanup now mem c in
      cache c1 !! tenant = None → size c1 = capacity →
      ∃ lruTenant rest,
        accessOrder c1 = lruTenant :: rest
        ∧ 0 < used lruTenant
        ∧ (∀ other, is_Some (cache c1 !! other) → other ≠ lruTenant →
             used lruTenant < used other)
        ∧ cache (set now mem tenant enforcer c)
          = <[tenant := enforcer]> (base.delete lruTenant (cache c1))
        ∧ accessOrder (set now mem tenant enforcer c) = rest ++ [tenant]
        ∧ size (set now mem tenant enforcer c) = capacity.
Proof.
  intros Hpos Hvalid c used.
  destruct (run_invariant ops (new capacity now0)) as (Hwf & Hmax & Hsize);
    [apply WF_new | done | simpl; rewrite map_size_empty; lia | done |].
  destruct (recency_invariant capacity now0 ops Hvalid) as [Hsorted Hused].
  fold c in Hwf, Hmax, Hsize, Hsorted, Hused. fold used in Hsorted, Hused.
  simpl in Hmax, Hsize.
  split; [done|]. split; [done|].
  intros now mem tenant enforcer c1 Hnew Hfull.
  pose proof (WF_cleanup now mem c Hwf) as Hwf1. fold c1 in Hwf1.
  pose proof (cleanup_order_sublist now mem c Hwf) as Hsub. fold c1 in Hsub.
  assert (Hmax1 : maxSize c1 = capacity)
    by (subst c1; by rewrite maxSize_cleanup).
  assert (Hsorted1 : StronglySorted (λ a b, used a < used b) (accessOrder c1))
    by (by eapply StronglySorted_sublist_measure).
  destruct (accessOrder c1) as [|lruTenant rest] eqn:Hao.
  { pose proof (WF_size _ Hwf1) as Hlen. rewrite Hao in Hlen.
    unfold size in Hfull. simpl in Hlen. lia. }
  exists lruTenant, rest. split; [done|].
  apply StronglySorted_inv in Hsorted1 as [_ Holder].
  rewrite Forall_forall in Holder, Hused.
  split; [apply Hused; eapply elem_of_sublist; [|exact Hsub]; left|].
  split.
  { intros other Hcached Hne. apply Holder.
    apply elem_of_dom in Hcached.
    rewrite (wf_dom _ Hwf1), Hao, elem_of_list_to_set in Hcached.
    by apply elem_of_cons in Hcached as [?|?]. }
  assert (Hset : set now mem tenant enforcer c =
    {| maxSize := maxSize c1;
       cache := <[tenant := enforcer]> (base.delete lruTenant (cache c1));
       accessOrder := rest ++ [tenant];
       memoryUsage := <[tenant := estimateEnforcerMemory enforcer]>
                        (base.delete lruTenant (memoryUsage c1));
       lastCleanup := lastCleanup c1;
       cleanupInterval := cleanupInterval c1 |}).
  { unfold set. fold c1. rewrite Hnew.
    unfold size in Hfull. rewrite Hmax1, Hfull, Nat.leb_refl.
    rewrite (evictLru_cons c1 lruTenant rest Hwf1 Hao). simpl.
    by rewrite Hmax1. }
  rewrite Hset. simpl. repeat split.
  unfold size. simpl.
  assert (Hin : is_Some (cache c1 !! lruTenant)).
  { apply elem_of_dom. rewrite (wf_dom _ Hwf1), Hao.
    apply elem_of_list_to_set. left. }
  destruct Hin as [x Hx].
  assert (tenant ≠ lruTenant) by congruence.
  rewrite map_size_insert_None by by rewrite lookup_delete_ne.
  rewrite map_size_delete_Some by done.
  unfold size in Hfull. lia.
Qed.

(** A full cache of capacity two in which [a], inserted first, was
    found by a [get] after [b] was inserted: the third tenant takes the
    place of [b], the least recently used. *)
Lemma cache_capacity_bound_witness :
  0 < 2
  ∧ Forall validOp Scenario.usedOps
  ∧ size (run Scenario.usedOps (new 2 0)) ≤ 2
  ∧ accessOrder (run Scenario.usedOps (new 2 0)) = ["b"; "a"]
  ∧ lastUse 2 0 Scenario.usedOps "b" = 2
  ∧ lastUse 2 0 Scenario.usedOps "a" = 3
  ∧ accessOrder (set 3 Scenario.calm "c" (Scenario.enforcerWith 3)
                     (run Scenario.usedOps (new 2 0))) = ["a"; "c"].
Proof.
  assert (Hpos : 0 < 2) by lia.
  assert (Hvalid : Forall validOp Scenario.usedOps) by (repeat constructor).
  pose proof (cache_capacity_bound 2 0 _ Hpos Hvalid) as (Hbound & _ & Hevict).
  refine (conj Hpos (conj Hvalid (conj Hbound _))).
  split; [reflexivity|]. split; [reflexivity|]. split; [reflexivity|].
  destruct (Hevict 3%Z Scenario.calm "c" (Scenario.enforcerWith 3))
    as (lruTenant & rest & Hao & _ & _ & _ & Horder & _);
    [reflexivity | reflexivity |].
  vm_compute in Hao. injection Hao as <- <-. exact Horder.
Defined.

(** The two hypotheses of the capacity bound mark the domain of the
    cache: a capacity of zero leaves nothing to evict, and the guard
    [if (lruTenant)] passes over a falsy tenant. *)
Example capacity_zero_keeps_one_entry :
  size (set 0 Scenario.calm "a" (Scenario.enforcerWith 1) (new 0 0)) = 1.
Proof. reflexivity. Qed.

Example falsy_tenant_is_not_evicted :
  size (run [OpSet 0 Scenario.calm "" (Scenario.enforcerWith 1);
             OpSet 1 Scenario.calm "a" (Scenario.enforcerWith 1)] (new 1 0)) = 2.
Proof. reflexivity. Qed.

(** The update branch of [set] leaves the memory accounting as the
    cleanup pass left it. *)
Lemma set_existing_memoryUsage now mem t e old c :
  cache (cleanup now mem c) !! t = Some old →
  memoryUsage (set now mem t e c) = memoryUsage (cleanup now mem c).
Proof. intros Hold. unfold set. by rewrite Hold. Qed.

(** C5 fails on the refresh path.  Tenant [t1] is cached with an
    enforcer of one line (estimate 1124); [set] then replaces it by an
    enforcer of five lines (estimate 1524): the entry is replaced, the
    stored estimate stays 1124, and so does the aggregate.  These
    figures are those of enforcers whose listings are arrays.  For an
    enforcer as the module builds it the listings are Promises, read
    without [await]: the estimate is [NaN] whatever the number of
    lines, and so is the aggregate once such an entry is cached. *)
Theorem set_refresh_keeps_stale_estimate :
  let c0 := set 0 Scenario.calm "t1" (Scenario.enforcerWith 1) (new 50 0) in
  let c1 := set 1 Scenario.calm "t1" (Scenario.enforcerWith 5) c0 in
  memoryUsage c0 !! "t1" = Some (Js.Num 1124)
  ∧ cache c1 !! "t1" = Some (Scenario.enforcerWith 5)
  ∧ estimateEnforcerMemory (Scenario.enforcerWith 5) = Js.Num 1524
  ∧ memoryUsage c1 !! "t1" = Some (Js.Num 1124)
  ∧ totalCacheMemory c1 = Js.Num 1124
  ∧ estimateEnforcerMemory (Casbin.enforcerOf Scenario.modelT1) = Js.NaN
  ∧ totalCacheMemory
      (set 0 Scenario.calm "t1" (Casbin.enforcerOf Scenario.modelT1) (new 50 0))
    = Js.NaN.
Proof. vm_compute. by repeat split. Qed.

End CacheClaims.

(** ** The adapter: tenant isolation *)

Section AdapterClaims.
Import TenantAwareAdapter.

Lemma hasPolicy_true lines rule : hasPolicy lines rule = true ↔ rule ∈ lines.
Proof. unfold hasPolicy. apply bool_decide_eq_true. Qed.

Lemma hasPolicy_false lines rule : hasPolicy lines rule = false ↔ rule ∉ lines.
Proof. unfold hasPolicy. apply bool_decide_eq_false. Qed.

(** [distinct] keeps the lines that are new, once each. *)
Lemma distinct_elem rules : ∀ seen line,
  line ∈ distinct seen rules ↔ line ∈ rules ∧ line ∉ seen.
Proof.
  induction rules as [|rule rest IH]; intros seen line; simpl.
  - rewrite elem_of_nil. tauto.
  - destruct (hasPolicy seen rule) eqn:Hheld.
    + apply hasPolicy_true in Hheld. rewrite IH, elem_of_cons.
      split; [tauto|]. intros [[->|Hin] Hnew]; [done|auto].
    + apply hasPolicy_false in Hheld.
      rewrite !elem_of_cons, IH, elem_of_app, list_elem_of_singleton.
      destruct (decide (line = rule)) as [->|Hne]; tauto.
Qed.

Lemma distinct_NoDup rules : ∀ seen, NoDup (distinct seen rules).
Proof.
  induction rules as [|rule rest IH]; intros seen; simpl; [constructor|].
  destruct (hasPolicy seen rule); [apply IH|].
  apply NoDup_cons. split; [|apply IH].
  rewrite distinct_elem, elem_of_app, list_elem_of_singleton. tauto.
Qed.

(** Lines that are pairwise different and new are all kept. *)
Lemma distinct_id rules : ∀ seen,
  NoDup rules → (∀ line, line ∈ rules → line ∉ seen) →
  distinct seen rules = rules.
Proof.
  induction rules as [|rule rest IH]; intros seen Hnd Hnew; [done|].
  apply NoDup_cons in Hnd as [Hnot Hnd]. simpl.
  assert (Hheld : hasPolicy seen rule = false)
    by (apply hasPolicy_false, Hnew; left).
  rewrite Hheld, IH; [done|done|].
  intros line Hin. rewrite elem_of_app, list_elem_of_singleton.
  intros [Hseen| ->]; [|done]. apply (Hnew line); [by right|done].
Qed.

Lemma distinct_snoc rules : ∀ seen line,
  distinct seen (rules ++ [line])
  = distinct seen rules
    ++ (if hasPolicy (seen ++ distinct seen rules) line then [] else [line]).
Proof.
  induction rules as [|rule rest IH]; intros seen line; simpl.
  - rewrite app_nil_r. by destruct (hasPolicy seen line).
  - destruct (hasPolicy seen rule); [apply IH|].
    rewrite IH. simpl. by rewrite <- app_assoc.
Qed.

Lemma foldl_addPolicy_p (f : CasbinRule → TenantEnforcerCache.Rule) rows m :
  foldl (λ m r, addPolicy "p" "p" (f r) m) m rows
  = {| p := p m ++ distinct (p m) (f <$> rows); g := g m |}.
Proof.
  revert m. induction rows as [|r rows IH]; intros m; simpl.
  - rewrite app_nil_r. by destruct m.
  - rewrite IH. unfold addPolicy. simpl.
    destruct (hasPolicy (p m) (f r)); simpl; [done|].
    by rewrite <- app_assoc.
Qed.

Lemma foldl_addPolicy_g (f : CasbinRule → TenantEnforcerCache.Rule) rows m :
  foldl (λ m r, addPolicy "g" "g" (f r) m) m rows
  = {| p := p m; g := g m ++ distinct (g m) (f <$> rows) |}.
Proof.
  revert m. induction rows as [|r rows IH]; intros m; simpl.
  - rewrite app_nil_r. by destruct m.
  - rewrite IH. unfold addPolicy. simpl.
    destruct (hasPolicy (g m) (f r)); simpl; [done|].
    by rewrite <- app_assoc.
Qed.

(** The lines [loadPolicy] puts in an empty model are the arrays of the
    rows its two queries select, each array once. *)
Lemma loadPolicy_Ok tenant s m :
  loadPolicy tenant s emptyModel = Js.Ok m →
  Js.truthy_opt tenant = true ∧ available s = true
  ∧ p m = distinct [] (policyArray
            <$> filter (λ r, ptype r = "p" ∧ sql_eq (v3 r) tenant) (casbin_rule s))
  ∧ g m = distinct [] (groupingArray
            <$> filter (λ r, ptype r = "g" ∧ sql_eq (v2 r) tenant) (casbin_rule s)).
Proof.
  unfold loadPolicy, select.
  destruct (Js.truthy_opt tenant); simpl; [|discriminate].
  destruct (available s); simpl; [|discriminate].
  rewrite foldl_addPolicy_p, foldl_addPolicy_g. simpl.
  by intros [= <-].
Qed.

Lemma sql_eq_Some column t : sql_eq column (Some t) ↔ column = Some t.
Proof. destruct column; simpl; [|done]. split; congruence. Qed.

(** With subject, object and action present the null filter keeps the
    tenant in the fourth position. *)
Lemma policyArray_tenant row T :
  complete row → v3 row = Some T →
  tenantField "p" (policyArray row) = Some (Some T).
Proof.
  intros (H0 & H1 & H2) H3. unfold policyArray, tenantField.
  destruct row as [pt [a|] [b|] [c|] d e]; simpl in *; try done.
  subst d. rewrite !filter_cons_True by done. done.
Qed.

(** What does hold of a load: every line of the model loaded for tenant
    [T] is the array of a stored row whose tenant column ([v3] of a
    permission row, [v2] of a grouping row) is [T]; the tenant position
    of the array carries [T] for every grouping line, and for a
    permission line when the row has its subject, object and action. *)
Lemma loadPolicy_selects_own_rows (T : string) (s : Store) (m : Model) :
  loadPolicy (Some T) s emptyModel = Js.Ok m →
  (∀ line, line ∈ p m →
     ∃ row, row ∈ casbin_rule s ∧ ptype row = "p" ∧ tenantOf row = Some T
            ∧ line = policyArray row
            ∧ (complete row → tenantField "p" line = Some (Some T)))
  ∧ (∀ line, line ∈ g m →
       ∃ row, row ∈ casbin_rule s ∧ ptype row = "g" ∧ tenantOf row = Some T
              ∧ line = groupingArray row
              ∧ tenantField "g" line = Some (Some T)).
Proof.
  intros (_ & _ & Hp & Hg)%loadPolicy_Ok. split.
  - intros line. rewrite Hp, distinct_elem.
    intros [(row & -> & [[Hk Ht] Hin]%list_elem_of_filter)%list_elem_of_fmap _].
    apply sql_eq_Some in Ht. exists row.
    split; [done|]. split; [done|].
    split; [unfold tenantOf; by rewrite decide_True|].
    split; [done|]. intros Hc. by apply policyArray_tenant.
  - intros line. rewrite Hg, distinct_elem.
    intros [(row & -> & [[Hk Ht] Hin]%list_elem_of_filter)%list_elem_of_fmap _].
    apply sql_eq_Some in Ht. exists row.
    split; [done|]. split; [done|].
    split; [unfold tenantOf; rewrite Hk; by simpl|].
    split; [done|]. unfold tenantField, groupingArray. simpl. by rewrite Ht.
Qed.

(** C1 fails on the code.  The table holds one row of tenant [t1]
    without an object, whose fifth column reads [t2].  The query of
    [loadPolicy] selects it for [t1] (its tenant column is [t1]) and
    not for [t2]; the null filter then closes the gap, and the line
    listed by the enforcer of [t1] carries [t2] in the tenant
    position.  The adapter writes rows with such gaps itself: the line
    [admin] added for [t1] is stored padded with [NULL], and loaded as
    a line of two values, with nothing in the tenant position. *)
Theorem loadPolicy_lists_foreign_tenant :
  let row := mkCasbinRule "p" (Some "admin") None (Some "read")
               (Some "t1") (Some "t2") in
  let line := [Some "admin"; Some "read"; Some "t1"; Some "t2"] in
  casbin_rule Scenario.storeShifted = [row]
  ∧ tenantOf row = Some "t1"
  ∧ loadPolicy (Some "t1") Scenario.storeShifted emptyModel
    = Js.Ok {| p := [line]; g := [] |}
  ∧ TenantEnforcerCache.getPolicy
      (Casbin.enforcerOf {| p := [line]; g := [] |})
    = TenantEnforcerCache.Promise [line]
  ∧ tenantField "p" line = Some (Some "t2")
  ∧ loadPolicy (Some "t2") Scenario.storeShifted emptyModel = Js.Ok emptyModel
  ∧ AdapterWrites.addPolicy false (Some "t1")
      {| available := true; casbin_rule := [] |} "p" "p" [Some "admin"]
    = Js.Ok {| available := true;
               casbin_rule := [mkCasbinRule "p" (Some "admin") None None
                                 (Some "t1") None] |}
  ∧ loadPolicy (Some "t1")
      {| available := true;
         casbin_rule := [mkCasbinRule "p" (Some "admin") None None
                           (Some "t1") None] |} emptyModel
    = Js.Ok {| p := [[Some "admin"; Some "t1"]]; g := [] |}
  ∧ tenantField "p" [Some "admin"; Some "t1"] = None.
Proof. repeat split. Qed.

End AdapterClaims.

(** ** Refresh and invalidation *)

Section CasbinClaims.
Import TenantEnforcerCache Casbin.

(** A store whose queries fail makes [createTenantEnforcer] throw. *)
Lemma createTenantEnforcer_store_down s tenant :
  TenantAwareAdapter.available s = false →
  ∃ msg, createTenantEnforcer s tenant = Js.Throw msg.
Proof.
  intros Hdown. unfold createTenantEnforcer, TenantAwareAdapter.loadPolicy,
    TenantAwareAdapter.select.
  destruct (negb _); [by eexists|]. rewrite Hdown. by eexists.
Qed.

(** An enforcer is only ever built for a truthy tenant. *)
Lemma createTenantEnforcer_truthy s tenant e :
  createTenantEnforcer s tenant = Js.Ok e → Js.truthy tenant = true.
Proof.
  unfold createTenantEnforcer.
  destruct (TenantAwareAdapter.loadPolicy _ _ _) as [m|msg] eqn:Hload;
    [|discriminate].
  intros _. by apply loadPolicy_Ok in Hload as [? _].
Qed.

(** Every synchronous piece of the module keeps its cache well-formed
    and within its fifty entries: an enforcer only reaches [set] for a
    truthy tenant. *)
Lemma refresh_invariant s now mem t c :
  WF c ∧ maxSize c = 50 ∧ base.size (cache c) ≤ 50 →
  WF (refreshTenantPolicies s now mem t c)
  ∧ maxSize (refreshTenantPolicies s now mem t c) = 50
  ∧ base.size (cache (refreshTenantPolicies s now mem t c)) ≤ 50.
Proof.
  intros (Hwf & Hmax & Hsize). unfold refreshTenantPolicies.
  destruct (createTenantEnforcer s t) as [e|msg] eqn:Hbuild; [|done].
  apply createTenantEnforcer_truthy in Hbuild.
  split; [by apply WF_set|]. split; [by rewrite maxSize_set|].
  rewrite <- Hmax. apply size_set; [done|lia|lia].
Qed.

Lemma step_invariant c k :
  WF c ∧ maxSize c = 50 ∧ base.size (cache c) ≤ 50 →
  WF (step c k) ∧ maxSize (step c k) = 50 ∧ base.size (cache (step c k)) ≤ 50.
Proof.
  intros Hc. destruct k as [now mem t|s now mem t|t]; simpl.
  - destruct Hc as (Hwf & Hmax & Hsize).
    split; [by apply WF_get|]. split; [by rewrite maxSize_get|].
    pose proof (size_get now mem t c Hwf). lia.
  - by apply refresh_invariant.
  - destruct Hc as (Hwf & Hmax & Hsize). unfold removeTenant.
    split; [by apply WF_evictTenant|]. split; [done|].
    pose proof (size_delete t c) as Hd.
    unfold delete, evictTenant in *. simpl in *. lia.
Qed.

Lemma steps_invariant during : ∀ c,
  WF c ∧ maxSize c = 50 ∧ base.size (cache c) ≤ 50 →
  WF (steps during c) ∧ maxSize (steps during c) = 50
  ∧ base.size (cache (steps during c)) ≤ 50.
Proof.
  induction during as [|k during IH]; intros c Hc; [done|].
  simpl. by apply IH, step_invariant.
Qed.

(** So does every call, whatever the other calls do while it is
    suspended. *)
Lemma call_invariant c k :
  WF c ∧ maxSize c = 50 ∧ base.size (cache c) ≤ 50 →
  WF (call c k) ∧ maxSize (call c k) = 50 ∧ base.size (cache (call c k)) ≤ 50.
Proof.
  intros Hc.
  destruct k as [s now mem during now' mem' t|s now mem t|t]; simpl.
  - unfold getTenantEnforcer.
    pose proof (step_invariant c (StepGet now mem t) Hc) as Hc1. simpl in Hc1.
    destruct (get now mem t c) as [c1 [e|]]; simpl in *; [done|].
    pose proof (steps_invariant during c1 Hc1) as Hc2.
    pose proof (refresh_invariant s now' mem' t _ Hc2) as Hc3.
    unfold refreshTenantPolicies in Hc3.
    by destruct (createTenantEnforcer s t) as [e|msg].
  - by apply refresh_invariant.
  - by apply (step_invariant c (StepDelete t)).
Qed.

Lemma calls_invariant now0 calls :
  WF (foldl call (tenantCache now0) calls)
  ∧ maxSize (foldl call (tenantCache now0) calls) = 50
  ∧ base.size (cache (foldl call (tenantCache now0) calls)) ≤ 50.
Proof.
  assert (Hall : ∀ calls c,
            WF c ∧ maxSize c = 50 ∧ base.size (cache c) ≤ 50 →
            WF (foldl call c calls) ∧ maxSize (foldl call c calls) = 50
            ∧ base.size (cache (foldl call c calls)) ≤ 50).
  { clear calls. intros calls. induction calls as [|k calls IH]; intros c Hc.
    - done.
    - simpl. by apply IH, call_invariant. }
  apply Hall. split; [apply WF_new|]. split; [done|].
  unfold tenantCache. simpl. rewrite map_size_empty. lia.
Qed.

(** The module's own cache stays within its fifty entries whatever the
    callers ask for and however their calls interleave. *)
Lemma tenantCache_capacity_bound now0 (calls : list Call) :
  size (foldl call (tenantCache now0) calls) ≤ 50.
Proof. by destruct (calls_invariant now0 calls) as (_ & _ & Hsize). Qed.

(** C6.  When building the replacement enforcer fails, the refresh
    returns the cache as it was: the previous entry of the tenant, the
    access order and the memory accounting are untouched.  Whenever a
    refresh does change the cache, a new enforcer was built first, and
    it is the one stored for the tenant. *)
Theorem refresh_failure_leaves_cache s now mem tenant c msg :
  createTenantEnforcer s tenant = Js.Throw msg →
  refreshTenantPolicies s now mem tenant c = c
  ∧ ∀ s', refreshTenantPolicies s' now mem tenant c ≠ c →
      ∃ newEnforcer,
        createTenantEnforcer s' tenant = Js.Ok newEnforcer
        ∧ refreshTenantPolicies s' now mem tenant c
          = set now mem tenant newEnforcer c
        ∧ cache (refreshTenantPolicies s' now mem tenant c) !! tenant
          = Some newEnforcer.
Proof.
  intros Hfail. split.
  - unfold refreshTenantPolicies. by rewrite Hfail.
  - intros s' Hchanged. unfold refreshTenantPolicies in *.
    destruct (createTenantEnforcer s' tenant) as [e|msg']; [|done].
    exists e. repeat split. apply lookup_set.
Qed.

(** With the store down a refresh of a cached tenant changes nothing. *)
Lemma refresh_failure_leaves_cache_witness :
  createTenantEnforcer Scenario.storeDown "a" = Js.Throw "store unavailable"
  ∧ refreshTenantPolicies Scenario.storeDown 40000 Scenario.elevated "a"
      Scenario.twoTenants = Scenario.twoTenants.
Proof.
  assert (Hfail : createTenantEnforcer Scenario.storeDown "a"
                  = Js.Throw "store unavailable") by reflexivity.
  split; [exact Hfail|].
  exact (proj1 (refresh_failure_leaves_cache Scenario.storeDown 40000
                  Scenario.elevated "a" Scenario.twoTenants _ Hfail)).
Defined.

(** The identity a replica publishes is one the handler filters. *)
Lemma isOwnMessage_ownServerId env data :
  serverId data = Some (ownServerId env) → isOwnMessage env data = true.
Proof.
  intros Hid. unfold isOwnMessage, ownServerId, Js.or_else in *.
  destruct (SERVER_ID env) as [sid|] eqn:Hsid.
  - destruct (Js.truthy sid).
    + rewrite Hid, bool_decide_eq_true_2 by done. apply orb_true_l.
    + rewrite (bool_decide_eq_true_2 _ Hid). apply orb_true_r.
  - rewrite (bool_decide_eq_true_2 _ Hid). apply orb_true_r.
Qed.

(** The guard of the handler in closed form: an event whose [serverId]
    is the value of [SERVER_ID] or the port-derived identity triggers
    no refresh and leaves the cache as it is, which covers every event
    stamped with the replica's own identity; any other event triggers
    one refresh, for exactly the tenant it names. *)
Lemma handleTenantRefresh_guard env s now mem data c :
  handleTenantRefresh env s now mem data c
  = (if decide (serverId data = SERVER_ID env
                ∨ serverId data = Some (defaultServerId env))
     then ([], c)
     else ([tenant data], refreshTenantPolicies s now mem (tenant data) c))
  ∧ (serverId data = Some (ownServerId env) →
     handleTenantRefresh env s now mem data c = ([], c)).
Proof.
  split.
  - unfold handleTenantRefresh, isOwnMessage.
    destruct (decide (serverId data = SERVER_ID env)) as [H1|H1];
      destruct (decide (serverId data = Some (defaultServerId env))) as [H2|H2].
    + rewrite decide_True by by left.
      by rewrite (bool_decide_eq_true_2 _ H1), orb_true_l.
    + rewrite decide_True by by left.
      by rewrite (bool_decide_eq_true_2 _ H1), orb_true_l.
    + rewrite decide_True by by right.
      by rewrite (bool_decide_eq_true_2 _ H2), orb_true_r.
    + rewrite decide_False by tauto.
      by rewrite (bool_decide_eq_false_2 _ H1), (bool_decide_eq_false_2 _ H2).
  - intros Hown. unfold handleTenantRefresh.
    by rewrite isOwnMessage_ownServerId.
Qed.

(** An event from replica [replica-b] makes [replica-a] refresh the
    tenant named, and an event stamped with its own identity does not. *)
Example handleTenantRefresh_two_events :
  handleTenantRefresh Scenario.replicaA Scenario.storeUp 40000 Scenario.calm
    Scenario.fromReplicaB Scenario.twoTenants
  = (["t1"], refreshTenantPolicies Scenario.storeUp 40000 Scenario.calm "t1"
               Scenario.twoTenants)
  ∧ handleTenantRefresh Scenario.replicaA Scenario.storeUp 40000 Scenario.calm
      {| tenant := "t1"; operation := "assign-user";
         serverId := Some (ownServerId Scenario.replicaA);
         timestamp := "" |} Scenario.twoTenants
    = ([], Scenario.twoTenants).
Proof. split; reflexivity. Qed.

(** C7 fails on the code.  Replica [replica-a] (started with
    [SERVER_ID=replica-a], default port) receives an event stamped
    [server-3000] by another replica: the origin is not the identity
    this replica publishes under, and yet the handler takes the event
    for its own and returns without a refresh of the tenant named. *)
Theorem handleTenantRefresh_skips_foreign_event :
  ownServerId Scenario.replicaA = "replica-a"
  ∧ serverId Scenario.fromPeer = Some "server-3000"
  ∧ serverId Scenario.fromPeer ≠ Some (ownServerId Scenario.replicaA)
  ∧ handleTenantRefresh Scenario.replicaA Scenario.storeUp 40000 Scenario.calm
      Scenario.fromPeer Scenario.twoTenants
    = ([], Scenario.twoTenants).
Proof. repeat split. discriminate. Qed.

End CasbinClaims.

(** ** The request queue: admission backpressure *)

Section QueueClaims.
Import RequestQueue.

Lemma processQueue_bounds now q :
  maxQueueSize (fst (processQueue now q)) = maxQueueSize q
  ∧ length (queue (fst (processQueue now q))) ≤ length (queue q).
Proof.
  unfold processQueue. destruct (orb _ _); [done|].
  destruct (queue q) as [|entry rest] eqn:Hq; simpl; [by rewrite Hq|].
  split; [done|lia].
Qed.

Lemma add_bounds now t q :
  length (queue q) ≤ maxQueueSize q →
  maxQueueSize (fst (add now t q)) = maxQueueSize q
  ∧ length (queue (fst (add now t q))) ≤ maxQueueSize q.
Proof.
  intros Hinv. unfold add.
  destruct (maxQueueSize q <=? length (queue q)) eqn:Hfull; simpl; [done|].
  apply Nat.leb_gt in Hfull.
  match goal with |- context [processQueue now ?q'] =>
    pose proof (processQueue_bounds now q') as [Hmax Hlen];
    destruct (processQueue now q') as [q'' started] end.
  simpl in *. rewrite length_app in Hlen. simpl in Hlen. split; [done|lia].
Qed.

(** The waiting queue never holds more than [maxQueueSize] entries. *)
Lemma run_bounds events q :
  length (queue q) ≤ maxQueueSize q →
  maxQueueSize (run events q) = maxQueueSize q
  ∧ length (queue (run events q)) ≤ maxQueueSize q.
Proof.
  revert q. induction events as [|e events IH]; intros q Hinv; [done|].
  assert (Hstep : maxQueueSize (step q e) = maxQueueSize q
                  ∧ length (queue (step q e)) ≤ maxQueueSize q).
  { destruct e as [now t| |now]; simpl.
    - by apply add_bounds.
    - done.
    - pose proof (processQueue_bounds now q) as [? ?]. split; [done|lia]. }
  destruct Hstep as [Hmax Hlen].
  destruct (IH (step q e)) as [? ?]; [lia|].
  unfold run in *. simpl. split; [congruence|lia].
Qed.

(** C4.  In every state the queue reaches from its construction,
    [add] rejects at once with the queue-full error exactly when the
    waiting queue already holds [maxQueueSize] entries, and a rejected
    call leaves the queue and the running count as they were.  With
    [maxConcurrent = 1] and [maxQueueSize = 1], three tasks submitted
    while none settles end with the first running, the second waiting
    and the third rejected. *)
Theorem admission_backpressure (concurrent queued : nat)
    (events : list Event) (now : Z) (t : Task) :
  let q := run events (new concurrent queued) in
  (snd (add now t q) = Js.Throw queueFull ↔ length (queue q) = queued)
  ∧ (length (queue q) = queued →
     queue (fst (add now t q)) = queue q
     ∧ running (fst (add now t q)) = running q)
  ∧ ∀ (n1 n2 n3 : Z) (t1 t2 t3 : Task),
      let q0 := new 1 1 in
      let q1 := fst (add n1 t1 q0) in
      let q2 := fst (add n2 t2 q1) in
      let q3 := fst (add n3 t3 q2) in
      snd (add n1 t1 q0) = Js.Ok (Some t1)
      ∧ snd (add n2 t2 q1) = Js.Ok None
      ∧ snd (add n3 t3 q2) = Js.Throw queueFull
      ∧ running q3 = 1
      ∧ task <$> queue q3 = [t2]
      ∧ rejectedRequests (stats q3) = 1.
Proof.
  intros q.
  destruct (run_bounds events (new concurrent queued)) as [Hmax Hlen];
    [simpl; lia|].
  fold q in Hmax, Hlen. simpl in Hmax, Hlen.
  split; [|split].
  - unfold add. rewrite Hmax.
    destruct (queued <=? length (queue q)) eqn:Hfull; simpl.
    + apply Nat.leb_le in Hfull. split; [lia|done].
    + apply Nat.leb_gt in Hfull.
      destruct (processQueue now _) as [q'' started]. simpl.
      split; [discriminate|lia].
  - intros Hfull. unfold add. rewrite Hmax, Hfull, Nat.leb_refl. done.
  - intros n1 n2 n3 t1 t2 t3. simpl. repeat split.
Qed.

End QueueClaims.

(** ** The rate limiter: sliding window and quota *)

Section RateLimitClaims.
Import RateLimit.

(** One check, in closed form: the record of the client is cut down to
    the timestamps inside the window, and the request is refused when
    that many reach the ceiling, recorded and passed on otherwise. *)
Lemma rateLimit_step windowMs maxRequests
    (requests : gmap string (list Z)) ip now :
  let clientId := Js.or_else ip "unknown" in
  let inWindow :=
    filter (λ timestamp, (timestamp > now - windowMs)%Z)
           (default [] (requests !! clientId)) in
  rateLimit windowMs maxRequests requests ip now
  = if maxRequests <=? length inWindow
    then (<[clientId := inWindow]> requests,
          TooManyRequests (retryAfter windowMs))
    else (<[clientId := inWindow ++ [now]]> requests, Next).
Proof.
  intros clientId inWindow. unfold rateLimit. fold clientId.
  subst inWindow.
  destruct (requests !! clientId) as [stamps|] eqn:Hrec; simpl;
    rewrite lookup_insert_eq; simpl;
    destruct (maxRequests <=? _); by rewrite ?insert_insert_eq.
Qed.

(** C8.  On a check for a client identity, the record of that identity
    keeps exactly its timestamps newer than [now - windowMs], so every
    timestamp as old as the window or older is dropped; the request is
    refused, with the retry-after hint, exactly when the number of
    timestamps kept has reached [maxRequests], and is let through
    (and its timestamp recorded) exactly otherwise; the records of the
    other identities are not touched. *)
Theorem rateLimit_sliding_window windowMs maxRequests
    (requests : gmap string (list Z)) ip now :
  let clientId := Js.or_else ip "unknown" in
  let before := default [] (requests !! clientId) in
  let inWindow :=
    filter (λ timestamp, (timestamp > now - windowMs)%Z) before in
  let after := fst (rateLimit windowMs maxRequests requests ip now) in
  let answer := snd (rateLimit windowMs maxRequests requests ip now) in
  (∀ timestamp, timestamp ∈ inWindow
                ↔ timestamp ∈ before ∧ (now - windowMs < timestamp)%Z)
  ∧ (answer = TooManyRequests (retryAfter windowMs)
     ↔ maxRequests ≤ length inWindow)
  ∧ (answer = Next ↔ length inWindow < maxRequests)
  ∧ after !! clientId
    = Some (if decide (maxRequests ≤ length inWindow)
            then inWindow else inWindow ++ [now])
  ∧ ∀ other, other ≠ clientId → after !! other = requests !! other.
Proof.
  intros clientId before inWindow after answer.
  subst after answer. rewrite rateLimit_step.
  fold clientId. fold before. fold inWindow.
  split.
  { intros timestamp. subst inWindow. rewrite list_elem_of_filter.
    split; intros [? ?]; split; auto; lia. }
  destruct (maxRequests <=? length inWindow) eqn:Hfull; simpl.
  - apply Nat.leb_le in Hfull. rewrite decide_True by done.
    repeat split; try done; try lia.
    + apply lookup_insert_eq.
    + intros other Hne. by rewrite lookup_insert_ne.
  - apply Nat.leb_gt in Hfull. rewrite decide_False by lia.
    repeat split; try done; try lia.
    + apply lookup_insert_eq.
    + intros other Hne. by rewrite lookup_insert_ne.
Qed.

Lemma serve_cons windowMs maxRequests requests ip now rest :
  serve windowMs maxRequests requests ((ip, now) :: rest)
  = (fst (serve windowMs maxRequests
                (fst (rateLimit windowMs maxRequests requests ip now)) rest),
     snd (rateLimit windowMs maxRequests requests ip now)
     :: snd (serve windowMs maxRequests
                   (fst (rateLimit windowMs maxRequests requests ip now)) rest)).
Proof.
  simpl. destruct (rateLimit _ _ _ _ _) as [requests' answer]. simpl.
  by destruct (serve _ _ _ _).
Qed.

(** Over a run, a record only ever holds what it held at the start
    and timestamps of requests that were let through, and it stays
    within the ceiling if it started within it. *)
Lemma serve_records windowMs maxRequests incoming :
  ∀ (requests : gmap string (list Z)) clientId stamps,
    fst (serve windowMs maxRequests requests incoming) !! clientId
      = Some stamps →
    stamps `sublist_of`
      (default [] (requests !! clientId)
       ++ admittedStamps clientId incoming
            (snd (serve windowMs maxRequests requests incoming)))
    ∧ (length (default [] (requests !! clientId)) ≤ maxRequests →
       length stamps ≤ maxRequests).
Proof.
  induction incoming as [|[ip now] rest IH]; intros requests clientId stamps.
  - simpl. intros ->. simpl. by rewrite app_nil_r.
  - rewrite serve_cons. simpl. intros Hfinal.
    destruct (IH _ _ _ Hfinal) as [Hsub Hlen]. clear IH Hfinal.
    revert Hsub Hlen. rewrite rateLimit_step.
    set (client := Js.or_else ip "unknown").
    set (inWindow := filter _ (default [] (requests !! client))).
    assert (HinW : inWindow `sublist_of` default [] (requests !! client))
      by apply sublist_filter.
    pose proof (sublist_length _ _ HinW) as HlenW.
    destruct (maxRequests <=? length inWindow) eqn:Hfull; simpl.
    + destruct (decide (client = clientId)) as [<-|Hne].
      * rewrite lookup_insert_eq. simpl. intros Hsub Hlen. split.
        -- etrans; [exact Hsub|]. by apply sublist_app.
        -- intros Hstart. apply Hlen. lia.
      * rewrite lookup_insert_ne by done. tauto.
    + apply Nat.leb_gt in Hfull.
      destruct (decide (client = clientId)) as [<-|Hne].
      * rewrite lookup_insert_eq. simpl. intros Hsub Hlen. split.
        -- etrans; [exact Hsub|]. rewrite <- app_assoc. simpl.
           by apply sublist_app.
        -- intros _. apply Hlen. rewrite length_app. simpl. lia.
      * rewrite lookup_insert_ne by done. tauto.
Qed.

(** C10.  A refused request leaves the record of its identity at the
    timestamps inside the window, without its own.  Hence, over every
    sequence of requests served from the empty map, each record is a
    subsequence of the timestamps of the requests of that identity
    that were let through, and never holds more than [maxRequests]
    timestamps. *)
Theorem rejected_requests_consume_no_quota windowMs maxRequests :
  (∀ (requests : gmap string (list Z)) ip now retry,
      snd (rateLimit windowMs maxRequests requests ip now)
        = TooManyRequests retry →
      fst (rateLimit windowMs maxRequests requests ip now)
        !! Js.or_else ip "unknown"
      = Some (filter (λ timestamp, (timestamp > now - windowMs)%Z)
                     (default [] (requests !! Js.or_else ip "unknown"))))
  ∧ ∀ incoming clientId stamps,
      fst (serve windowMs maxRequests ∅ incoming) !! clientId = Some stamps →
      stamps `sublist_of`
        admittedStamps clientId incoming
          (snd (serve windowMs maxRequests ∅ incoming))
      ∧ length stamps ≤ maxRequests.
Proof.
  split.
  - intros requests ip now retry. rewrite rateLimit_step.
    destruct (maxRequests <=? _); simpl; [|discriminate].
    intros _. apply lookup_insert_eq.
  - intros incoming clientId stamps Hfinal.
    destruct (serve_records windowMs maxRequests incoming ∅ clientId stamps
                Hfinal) as [Hsub Hlen].
    rewrite lookup_empty in Hsub, Hlen. simpl in Hsub, Hlen.
    split; [done|]. apply Hlen. lia.
Qed.

End RateLimitClaims.

(** Three requests of one client within a window that admits two: the
    third is refused and leaves no timestamp. *)
Example serve_third_refused :
  RateLimit.serve 60000 2 ∅ [(Some "10.0.0.1", 1000%Z); (Some "10.0.0.1", 2000%Z);
                             (Some "10.0.0.1", 3000%Z)]
  = ({[ "10.0.0.1" := [1000%Z; 2000%Z] ]},
     [RateLimit.Next; RateLimit.Next; RateLimit.TooManyRequests 60]).
Proof. reflexivity. Qed.

(** ** The duplicate pre-check *)

Section ServerClaims.
Import TenantAwareAdapter Server.

(** C9.  When the database checks are switched off, when the shared
    adapter cannot be obtained, or when the count query fails because
    the store is unavailable, [checkDatabaseDuplicate] answers [false];
    the [/add-permission] handler then goes on to the write, and its
    answer is the one the write path gives: the failure of the
    pre-check is not reported. *)
Theorem duplicate_precheck_fails_open (dbCheckEnabled : bool)
    (adapter : Js.Result Store) (ptype_ : string)
    (values : list (option string)) (tenant : option string) :
  dbCheckEnabled = false
  ∨ (∃ msg, adapter = Js.Throw msg)
  ∨ (∃ s, adapter = Js.Ok s ∧ available s = false) →
  checkDatabaseDuplicate dbCheckEnabled adapter ptype_ values tenant = false
  ∧ ∀ role obj act write,
      addPermission dbCheckEnabled adapter role obj act tenant write
      = proceed role obj act tenant write.
Proof.
  intros Hcause.
  assert (Hfalse : ∀ pt vs,
            checkDatabaseDuplicate dbCheckEnabled adapter pt vs tenant = false).
  { intros pt vs. unfold checkDatabaseDuplicate.
    destruct Hcause as [->|[[msg ->]|(s & -> & Hdown)]]; [done| |].
    - by destruct dbCheckEnabled.
    - destruct dbCheckEnabled; [|done]. simpl.
      unfold countQuery, select. rewrite Hdown.
      by repeat case_decide. }
  split; [apply Hfalse|].
  intros role obj act write. unfold addPermission. by rewrite Hfalse.
Qed.

(** With the store down the pre-check lets a stored permission through. *)
Lemma duplicate_precheck_fails_open_witness :
  checkDatabaseDuplicate true (Js.Ok Scenario.storeDown) "p"
    [Some "admin"; Some "doc1"; Some "read"] (Some "t1") = false
  ∧ addPermission true (Js.Ok Scenario.storeDown)
      (Some "admin") (Some "doc1") (Some "read") (Some "t1") (Js.Ok true)
    = Json true.
Proof.
  assert (Hcause : true = false
                   ∨ (∃ msg, Js.Ok Scenario.storeDown = Js.Throw msg)
                   ∨ (∃ s, Js.Ok Scenario.storeDown = Js.Ok s
                           ∧ available s = false))
    by (right; right; exists Scenario.storeDown; split; reflexivity).
  destruct (duplicate_precheck_fails_open true (Js.Ok Scenario.storeDown) "p"
              [Some "admin"; Some "doc1"; Some "read"] (Some "t1") Hcause)
    as [Hcheck Hhandler].
  split; [exact Hcheck|]. exact (Hhandler _ _ _ _).
Defined.

(** With the store up the same request is recognised as a duplicate. *)
Example precheck_finds_duplicate :
  checkDatabaseDuplicate true (Js.Ok Scenario.storeUp) "p"
    [Some "admin"; Some "doc1"; Some "read"] (Some "t1") = true.
Proof. reflexivity. Qed.

End ServerClaims.

(** ** More on the cache: what a cleanup pass and an insertion spare *)

Section CacheRecency.
Import TenantEnforcerCache.

(** The rounded product stays below the number multiplied: seven tenths
    of a positive size is less than the size, also in binary64. *)
Lemma floor_mul_0_7_lt (n : Z) : (0 < n)%Z → (Js.floor_mul_0_7 n < n)%Z.
Proof.
  intros Hn. unfold Js.floor_mul_0_7.
  rewrite Z.shiftr_div_pow2 by lia.
  apply Z.div_lt_upper_bound; [lia|].
  unfold Js.round_binary64, Js.mantissa_0_7.
  set (num := (n * 6305039478318694)%Z).
  assert (Hnum : (0 < num)%Z) by (subst num; lia).
  destruct (Z.log2 num - 52 <=? 0)%Z eqn:Hshift; [subst num; lia|].
  apply Z.leb_gt in Hshift.
  set (shift := (Z.log2 num - 52)%Z) in *.
  rewrite Z.shiftl_mul_pow2, Z.shiftr_div_pow2 by lia.
  assert (Hpow : (0 < 2 ^ shift)%Z) by (apply Z.pow_pos_nonneg; lia).
  pose proof (Z.mul_div_le num (2 ^ shift) Hpow) as Hq.
  assert (Hlog : (2 ^ shift * 2 ^ 52 <= num)%Z).
  { rewrite <- Z.pow_add_r by lia.
    replace (shift + 52)%Z with (Z.log2 num) by (subst shift; lia).
    by apply Z.log2_spec. }
  set (q := (num / 2 ^ shift)%Z) in *.
  set (P := (2 ^ shift)%Z) in *.
  assert (Hup : ((if (Z.shiftl 1 (shift - 1) <? Z.land num (Z.ones shift))%Z
                      || ((Z.land num (Z.ones shift) =? Z.shiftl 1 (shift - 1))%Z
                          && Z.odd q)
                  then q + 1 else q) * P <= num + P)%Z).
  { destruct (orb _ _); nia. }
  subst num. lia.
Qed.

(** How many rounds of the eviction loop a cleanup pass runs on a cache
    within its capacity: fewer than there are entries. *)
Lemma cleanup_shape now mem c :
  WF c → base.size (cache c) ≤ maxSize c →
  ∃ k, (k < base.size (cache c) ∨ base.size (cache c) = 0)
       ∧ (cleanup now mem c = c
          ∨ cleanup now mem c = with_lastCleanup now (evictLoop k c)).
Proof.
  intros Hwf Hbound. unfold cleanup.
  destruct (_ <? _)%Z; [exists 0; split; [lia|by left]|].
  destruct (shouldAggressiveEvict mem).
  - eexists. split; [|by right].
    destruct (base.size (cache c)) as [|n] eqn:Hsize; [by right|left].
    pose proof (floor_mul_0_7_lt (Z.of_nat (S n))) as Hlt.
    destruct (Js.floor_mul_0_7 (Z.of_nat (S n))); lia.
  - destruct (maxSize c <? base.size (cache c)) eqn:Hover.
    + apply Nat.ltb_lt in Hover. lia.
    + exists 0. split; [lia|by right].
Qed.

Lemma last_not_in_take (l : list string) t k :
  NoDup l → last l = Some t → k < length l →
  (t ∉ take k l) ∧ last (drop k l) = Some t.
Proof.
  intros Hnd Hlast Hk.
  rewrite <- (take_drop k l) in Hnd, Hlast.
  assert (Hne : drop k l ≠ []).
  { intros Hnil. apply (f_equal length) in Hnil.
    rewrite length_drop in Hnil. simpl in Hnil. lia. }
  rewrite last_app in Hlast.
  destruct (last (drop k l)) as [y|] eqn:Hd.
  - injection Hlast as ->. split; [|done].
    apply NoDup_app in Hnd as (_ & Hdisj & _).
    intros Hin. apply (Hdisj t Hin). by apply last_Some_elem_of.
  - exfalso. destruct (drop k l) as [|x l'] eqn:Hdl; [done|].
    by rewrite last_cons in Hd; destruct (last l').
Qed.

(** A cleanup pass on a cache within its capacity keeps the tenant at
    the tail of the access order: its entry, its place and its
    accounting. *)
Lemma cleanup_spares_last now mem c t :
  WF c → base.size (cache c) ≤ maxSize c →
  last (accessOrder c) = Some t →
  cache (cleanup now mem c) !! t = cache c !! t
  ∧ memoryUsage (cleanup now mem c) !! t = memoryUsage c !! t
  ∧ last (accessOrder (cleanup now mem c)) = Some t.
Proof.
  intros Hwf Hbound Hlast.
  destruct (cleanup_shape now mem c Hwf Hbound) as (k & Hk & [->| ->]); [done|].
  rewrite evictLoop_take by done. simpl.
  assert (Hlen : k < length (accessOrder c)).
  { rewrite <- WF_size by done. destruct Hk as [?|Hz]; [done|].
    rewrite WF_size in Hz by done.
    destruct (accessOrder c); [done|discriminate]. }
  destruct (last_not_in_take _ t k (wf_nodup _ Hwf) Hlast Hlen) as [Hnot Hl].
  rewrite !lookup_evicted, !decide_False by done. done.
Qed.

Lemma WF_last_cached c t :
  WF c → last (accessOrder c) = Some t → is_Some (cache c !! t).
Proof.
  intros Hwf Hlast. apply elem_of_dom.
  rewrite (wf_dom _ Hwf), elem_of_list_to_set. by apply last_Some_elem_of.
Qed.

Lemma last_set now mem t e c :
  last (accessOrder (set now mem t e c)) = Some t.
Proof.
  unfold set. destruct (cache (cleanup now mem c) !! t); simpl;
    [unfold touch|]; apply last_snoc.
Qed.

(** What is not cached is not brought back by the eviction loop or by a
    cleanup pass. *)
Lemma evictLoop_None n c t :
  cache c !! t = None → cache (evictLoop n c) !! t = None.
Proof.
  revert c. induction n as [|n IH]; intros c Hnone; [done|].
  simpl. apply IH. unfold evictLru.
  destruct (accessOrder c) as [|lru rest]; [done|].
  destruct (Js.truthy lru); simpl; [|done].
  destruct (decide (t = lru)) as [->|Hne];
    [apply lookup_delete_eq | by rewrite lookup_delete_ne].
Qed.

Lemma cleanup_None now mem c t :
  cache c !! t = None → cache (cleanup now mem c) !! t = None.
Proof.
  intros Hnone. destruct (cleanup_cases now mem c) as [->|[n ->]]; [done|].
  simpl. by apply evictLoop_None.
Qed.

(** X1.  After every sequence of calls from the empty cache (truthy
    tenants in [set]), the three structures of the cache agree: the
    access order lists every cached tenant exactly once and nothing
    else, memory is accounted for exactly the cached tenants, and the
    number of entries is the length of the access order. *)
Theorem cache_structures_agree capacity now0 ops :
  Forall validOp ops →
  let c := run ops (new capacity now0) in
  NoDup (accessOrder c)
  ∧ (∀ t, t ∈ accessOrder c ↔ is_Some (cache c !! t))
  ∧ (∀ t, is_Some (memoryUsage c !! t) ↔ is_Some (cache c !! t))
  ∧ size c = length (accessOrder c).
Proof.
  intros Hvalid c.
  pose proof (WF_reachable ops capacity now0 Hvalid) as Hwf. fold c in Hwf.
  split; [apply (wf_nodup _ Hwf)|]. split; [|split].
  - intros t. rewrite <- elem_of_dom, (wf_dom _ Hwf).
    by rewrite elem_of_list_to_set.
  - intros t. by rewrite <- !elem_of_dom, (wf_memory _ Hwf).
  - by apply WF_size.
Qed.

(** After a hit on [a] the order of the two-tenant cache is [b], [a]. *)
Lemma cache_structures_agree_witness :
  Forall validOp [OpSet 0 Scenario.calm "a" (Scenario.enforcerWith 1);
                  OpSet 1 Scenario.calm "b" (Scenario.enforcerWith 2);
                  OpGet 2 Scenario.calm "a"]
  ∧ NoDup ["b"; "a"].
Proof.
  assert (Hvalid : Forall validOp
            [OpSet 0 Scenario.calm "a" (Scenario.enforcerWith 1);
             OpSet 1 Scenario.calm "b" (Scenario.enforcerWith 2);
             OpGet 2 Scenario.calm "a"]) by (repeat constructor).
  split; [exact Hvalid|].
  exact (proj1 (cache_structures_agree 50 0 _ Hvalid)).
Defined.

(** X2.  A cleanup pass never evicts the most recently used tenant:
    whatever the heap pressure and the clock, the tenant at the tail of
    the access order of a reachable cache keeps its entry and its
    place; in particular the aggressive pass never empties a cache. *)
Theorem cleanup_keeps_most_recent capacity now0 ops t now mem :
  0 < capacity → Forall validOp ops →
  last (accessOrder (run ops (new capacity now0))) = Some t →
  is_Some (cache (run ops (new capacity now0)) !! t)
  ∧ cache (cleanup now mem (run ops (new capacity now0))) !! t
    = cache (run ops (new capacity now0)) !! t
  ∧ last (accessOrder (cleanup now mem (run ops (new capacity now0))))
    = Some t.
Proof.
  intros Hpos Hvalid Hlast.
  destruct (run_invariant ops (new capacity now0)) as (Hwf & Hmax & Hsize);
    [apply WF_new | done | simpl; rewrite map_size_empty; lia | done |].
  split; [by apply WF_last_cached|].
  destruct (cleanup_spares_last now mem _ t Hwf) as (? & _ & ?);
    [lia|done|done].
Qed.

(** Heap at 80%, cleanup due: of the tenants [a], [b] the pass evicts
    [a] and keeps [b]. *)
Lemma cleanup_keeps_most_recent_witness :
  cache (cleanup 30000 Scenario.elevated Scenario.twoTenants) !! "b"
  = Some (Scenario.enforcerWith 2).
Proof.
  assert (Hpos : 0 < 50) by lia.
  assert (Hvalid : Forall validOp
            [OpSet 0 Scenario.calm "a" (Scenario.enforcerWith 1);
             OpSet 1 Scenario.calm "b" (Scenario.enforcerWith 2)])
    by (repeat constructor).
  assert (Hlast : last (accessOrder (run
            [OpSet 0 Scenario.calm "a" (Scenario.enforcerWith 1);
             OpSet 1 Scenario.calm "b" (Scenario.enforcerWith 2)]
            (new 50 0))) = Some "b") by reflexivity.
  exact (proj1 (proj2 (cleanup_keeps_most_recent 50 0 _ "b" 30000
                         Scenario.elevated Hpos Hvalid Hlast))).
Defined.

Lemma set_bounded now mem t e c :
  WF c → 0 < maxSize c → base.size (cache c) ≤ maxSize c →
  Js.truthy t = true →
  WF (set now mem t e c)
  ∧ base.size (cache (set now mem t e c)) ≤ maxSize (set now mem t e c).
Proof.
  intros Hwf Hpos Hbound Ht. split; [by apply WF_set|].
  rewrite maxSize_set. by apply size_set.
Qed.

(** X3.  What [set] stores, the next [get] returns: on a reachable
    cache with room for at least one entry, a [get] of the tenant just
    set is a hit on the enforcer just stored, whatever the clock and
    the heap pressure its cleanup pass meets. *)
Theorem set_then_get capacity now0 ops now mem t e now' mem' :
  0 < capacity → Forall validOp ops → Js.truthy t = true →
  snd (get now' mem' t (set now mem t e (run ops (new capacity now0))))
  = Some e.
Proof.
  intros Hpos Hvalid Ht.
  destruct (run_invariant ops (new capacity now0)) as (Hwf & Hmax & Hsize);
    [apply WF_new | done | simpl; rewrite map_size_empty; lia | done |].
  simpl in Hmax, Hsize.
  set (c := run ops (new capacity now0)) in *.
  destruct (set_bounded now mem t e c) as [Hwf' Hsize']; [done|lia|lia|done|].
  destruct (cleanup_spares_last now' mem' _ t Hwf' Hsize' (last_set _ _ _ _ _))
    as (Hsame & _ & _).
  unfold get. rewrite Hsame, lookup_set. done.
Qed.

(** A refresh of [b] under calm memory, read back under pressure. *)
Lemma set_then_get_witness :
  snd (get 40000 Scenario.elevated "b"
         (set 2 Scenario.calm "b" (Scenario.enforcerWith 7) Scenario.twoTenants))
  = Some (Scenario.enforcerWith 7).
Proof.
  assert (Hpos : 0 < 50) by lia.
  assert (Hvalid : Forall validOp
            [OpSet 0 Scenario.calm "a" (Scenario.enforcerWith 1);
             OpSet 1 Scenario.calm "b" (Scenario.enforcerWith 2)])
    by (repeat constructor).
  assert (Ht : Js.truthy "b" = true) by reflexivity.
  exact (set_then_get 50 0 _ 2 Scenario.calm "b" (Scenario.enforcerWith 7)
           40000 Scenario.elevated Hpos Hvalid Ht).
Defined.

(** X4.  With room for at least two entries, inserting or refreshing
    another tenant never costs the most recently used tenant its
    entry: the victim of an insertion at capacity is a different
    tenant. *)
Theorem set_spares_most_recent capacity now0 ops t t' e' now mem :
  2 ≤ capacity → Forall validOp ops → t' ≠ t →
  last (accessOrder (run ops (new capacity now0))) = Some t →
  cache (set now mem t' e' (run ops (new capacity now0))) !! t
  = cache (run ops (new capacity now0)) !! t.
Proof.
  intros Hcap Hvalid Hne Hlast.
  destruct (run_invariant ops (new capacity now0)) as (Hwf & Hmax & Hsize);
    [apply WF_new | simpl; lia | simpl; rewrite map_size_empty; lia | done |].
  simpl in Hmax, Hsize.
  set (c := run ops (new capacity now0)) in *.
  destruct (cleanup_spares_last now mem c t Hwf) as (Hsame & _ & Hlast1);
    [lia|done|].
  pose proof (WF_cleanup now mem c Hwf) as Hwf1.
  pose proof (maxSize_cleanup now mem c) as Hmax1.
  rewrite <- Hsame. unfold set.
  destruct (cache (cleanup now mem c) !! t') as [old|] eqn:Hlook; simpl.
  - by rewrite lookup_insert_ne.
  - rewrite lookup_insert_ne by done.
    destruct (maxSize (cleanup now mem c) <=? base.size (cache (cleanup now mem c)))
      eqn:Hfull; [|done].
    apply Nat.leb_le in Hfull.
    destruct (accessOrder (cleanup now mem c)) as [|lru rest] eqn:Hao; [done|].
    rewrite (evictLru_cons _ lru rest Hwf1 Hao). simpl.
    pose proof (WF_size _ Hwf1) as Hlen. rewrite Hao in Hlen. simpl in Hlen.
    destruct rest as [|x rest']; [simpl in Hlen; lia|].
    assert (Hin : t ∈ x :: rest').
    { apply last_Some_elem_of. by rewrite last_cons_cons in Hlast1. }
    pose proof (wf_nodup _ Hwf1) as Hnd. rewrite Hao in Hnd.
    apply NoDup_cons in Hnd as [Hnot _].
    rewrite lookup_delete_ne; [done|]. by intros ->.
Qed.

(** The full cache of capacity two takes [c]: [b], used last, stays. *)
Lemma set_spares_most_recent_witness :
  cache (set 2 Scenario.calm "c" (Scenario.enforcerWith 3) Scenario.fullCache)
    !! "b"
  = Some (Scenario.enforcerWith 2).
Proof.
  assert (Hcap : 2 ≤ 2) by lia.
  assert (Hvalid : Forall validOp
            [OpSet 0 Scenario.calm "a" (Scenario.enforcerWith 1);
             OpSet 1 Scenario.calm "b" (Scenario.enforcerWith 2)])
    by (repeat constructor).
  assert (Hne : "c" ≠ "b") by discriminate.
  assert (Hlast : last (accessOrder (run
            [OpSet 0 Scenario.calm "a" (Scenario.enforcerWith 1);
             OpSet 1 Scenario.calm "b" (Scenario.enforcerWith 2)]
            (new 2 0))) = Some "b") by reflexivity.
  exact (set_spares_most_recent 2 0 _ "b" "c" (Scenario.enforcerWith 3) 2
           Scenario.calm Hcap Hvalid Hne Hlast).
Defined.

Lemma add_comm (a b : Js.Number) : Js.add a b = Js.add b a.
Proof. destruct a, b; simpl; [f_equal; lia|done..]. Qed.

Lemma add_assoc (a b c : Js.Number) :
  Js.add a (Js.add b c) = Js.add (Js.add a b) c.
Proof. destruct a, b, c; simpl; [f_equal; lia|done..]. Qed.

Lemma sum_permutation (l1 l2 : list Js.Number) :
  l1 ≡ₚ l2 → foldr Js.add (Js.Num 0) l1 = foldr Js.add (Js.Num 0) l2.
Proof.
  induction 1 as [|x l1 l2 _ IH|x y l|l1 l2 l3 _ IH1 _ IH2]; simpl.
  - done.
  - by rewrite IH.
  - by rewrite !add_assoc, (add_comm x y).
  - by rewrite IH1.
Qed.

Lemma total_insert_new (m : gmap string Js.Number) t v :
  m !! t = None →
  foldr Js.add (Js.Num 0) (snd <$> map_to_list (<[t := v]> m))
  = Js.add v (foldr Js.add (Js.Num 0) (snd <$> map_to_list m)).
Proof.
  intros Hnone.
  rewrite (sum_permutation _ (snd <$> ((t, v) :: map_to_list m))); [done|].
  by rewrite map_to_list_insert.
Qed.

Lemma total_delete (m : gmap string Js.Number) t v :
  m !! t = Some v →
  foldr Js.add (Js.Num 0) (snd <$> map_to_list m)
  = Js.add v (foldr Js.add (Js.Num 0) (snd <$> map_to_list (base.delete t m))).
Proof.
  intros Hlook. rewrite <- (insert_delete_id m t v Hlook) at 1.
  apply total_insert_new, lookup_delete_eq.
Qed.

(** X5.  [delete] removes a tenant from the map, from the access order
    and from the memory accounting at once, so the next [get] misses;
    the other tenants keep their entries and their estimates; and on a
    well-formed cache deleting a tenant that is not cached changes
    nothing at all. *)
Theorem delete_removes_everywhere t c now mem :
  cache (delete t c) !! t = None
  ∧ memoryUsage (delete t c) !! t = None
  ∧ (t ∉ accessOrder (delete t c))
  ∧ snd (get now mem t (delete t c)) = None
  ∧ (∀ t', t' ≠ t →
       cache (delete t c) !! t' = cache c !! t'
       ∧ memoryUsage (delete t c) !! t' = memoryUsage c !! t'
       ∧ (t' ∈ accessOrder (delete t c) ↔ t' ∈ accessOrder c))
  ∧ (WF c → cache c !! t = None → delete t c = c).
Proof.
  unfold delete. repeat split.
  - apply lookup_delete_eq.
  - apply lookup_delete_eq.
  - simpl. rewrite list_elem_of_filter. tauto.
  - unfold get. rewrite cleanup_None; [done|]. apply lookup_delete_eq.
  - simpl. by rewrite lookup_delete_ne.
  - simpl. by rewrite lookup_delete_ne.
  - simpl. rewrite list_elem_of_filter. tauto.
  - simpl. rewrite list_elem_of_filter. tauto.
  - intros Hwf Hnone.
    assert (Hmem : memoryUsage c !! t = None).
    { apply not_elem_of_dom. rewrite (wf_memory _ Hwf).
      by apply not_elem_of_dom. }
    assert (Hnot : t ∉ accessOrder c).
    { rewrite <- (elem_of_list_to_set (C := gset string)), <- (wf_dom _ Hwf).
      by apply not_elem_of_dom. }
    unfold evictTenant.
    rewrite !delete_id, filter_ne_notin by done. by destruct c.
Qed.

(** X6.  The aggregate estimate is the sum of the recorded estimates,
    with the addition of JavaScript numbers: the total is the estimate
    recorded for a tenant added to the total that [delete] of the
    tenant leaves, and inserting a tenant that is not cached, into a
    well-formed cache with room left, gives the estimate of the new
    enforcer added to the total the cleanup pass left.  The estimate of
    an enforcer built by the module is [NaN], its listings being
    Promises read without [await]; one [NaN] among the recorded
    estimates makes the total [NaN]. *)
Theorem total_follows_accounting t c :
  (∀ v, memoryUsage c !! t = Some v →
        totalCacheMemory c = Js.add v (totalCacheMemory (delete t c)))
  ∧ (memoryUsage c !! t = None →
     totalCacheMemory (delete t c) = totalCacheMemory c)
  ∧ (∀ now mem e,
       WF c → cache (cleanup now mem c) !! t = None →
       base.size (cache (cleanup now mem c)) < maxSize c →
       totalCacheMemory (set now mem t e c)
       = Js.add (estimateEnforcerMemory e)
                (totalCacheMemory (cleanup now mem c)))
  ∧ (∀ m, estimateEnforcerMemory (Casbin.enforcerOf m) = Js.NaN)
  ∧ (memoryUsage c !! t = Some Js.NaN → totalCacheMemory c = Js.NaN).
Proof.
  split; [|split; [|split; [|split]]].
  - intros v Hlook. by apply total_delete.
  - intros Hnone. unfold totalCacheMemory, delete, evictTenant. simpl.
    by rewrite delete_id.
  - intros now mem e Hwf Hnone Hroom.
    pose proof (WF_cleanup now mem c Hwf) as Hwf1.
    unfold totalCacheMemory, set. rewrite Hnone.
    rewrite maxSize_cleanup.
    destruct (maxSize c <=? base.size (cache (cleanup now mem c))) eqn:Hfull;
      [apply Nat.leb_le in Hfull; lia|].
    simpl. apply total_insert_new.
    apply not_elem_of_dom. rewrite (wf_memory _ Hwf1). by apply not_elem_of_dom.
  - done.
  - intros Hlook. unfold totalCacheMemory.
    by rewrite (total_delete _ t _ Hlook).
Qed.

(** The module's cache with tenant [t1] loaded: the estimate recorded
    and the total reported are [NaN]. *)
Example total_of_loaded_tenant :
  let c := Casbin.refreshTenantPolicies Scenario.storeUp 1 Scenario.calm "t1"
             (Casbin.tenantCache 0) in
  cache c !! "t1" = Some (Casbin.enforcerOf Scenario.modelT1)
  ∧ memoryUsage c !! "t1" = Some Js.NaN
  ∧ totalCacheMemory c = Js.NaN.
Proof. vm_compute. by repeat split. Qed.

End CacheRecency.

(** ** More on the module: serving from the cache, failing loads, and
    the path of a notification *)

Section CasbinMore.
Import TenantEnforcerCache Casbin.

(** X7.  Once a call of [getTenantEnforcer] has returned an enforcer
    for a tenant, whatever the other calls did to the cache while it
    was suspended in the load, a call for the same tenant that is the
    next to touch the cache returns the same enforcer by the lookup
    alone: nothing is loaded (the store may be down) and nothing is
    stored, whatever the clock and the heap pressure. *)
Theorem getTenantEnforcer_served_from_cache now0 calls
    s n1 m1 during n2 m2 t e s' n3 m3 during' n4 m4 :
  snd (getTenantEnforcer s n1 m1 during n2 m2 t
         (foldl call (tenantCache now0) calls)) = Js.Ok e →
  let c1 := fst (getTenantEnforcer s n1 m1 during n2 m2 t
                   (foldl call (tenantCache now0) calls)) in
  getTenantEnforcer s' n3 m3 during' n4 m4 t c1
  = (fst (get n3 m3 t c1), Js.Ok e).
Proof.
  pose proof (calls_invariant now0 calls) as Hc.
  set (c := foldl call (tenantCache now0) calls) in *.
  intros Hfirst c1.
  assert (Hhit : ∀ c', WF c' → base.size (cache c') ≤ maxSize c' →
            last (accessOrder c') = Some t → cache c' !! t = Some e →
            getTenantEnforcer s' n3 m3 during' n4 m4 t c'
            = (fst (get n3 m3 t c'), Js.Ok e)).
  { intros c' Hwf' Hsize' Hlast' Hlook'.
    destruct (cleanup_spares_last n3 m3 c' t Hwf' Hsize' Hlast')
      as (Hsame & _ & _).
    unfold getTenantEnforcer, get. by rewrite Hsame, Hlook'. }
  assert (Hafter : WF c1 ∧ base.size (cache c1) ≤ maxSize c1
                   ∧ last (accessOrder c1) = Some t ∧ cache c1 !! t = Some e).
  { subst c1. revert Hfirst. unfold getTenantEnforcer.
    pose proof (step_invariant c (StepGet n1 m1 t) Hc) as Hc1. simpl in Hc1.
    unfold get in *.
    destruct (cache (cleanup n1 m1 c) !! t) as [e0|] eqn:Hlook; simpl in *.
    - intros [= ->]. destruct Hc1 as (Hwf1 & Hmax1 & Hsize1).
      split; [done|]. split; [lia|]. split; [|done].
      unfold touch. apply last_snoc.
    - destruct (createTenantEnforcer s t) as [e1|msg] eqn:Hbuild; simpl;
        [|discriminate].
      intros [= ->].
      destruct (steps_invariant during _ Hc1) as (Hwf2 & Hmax2 & Hsize2).
      destruct (set_bounded n2 m2 t e (steps during (cleanup n1 m1 c)))
        as [Hwf3 Hsize3];
        [done|lia|lia|by eapply createTenantEnforcer_truthy|].
      split; [done|]. split; [done|]. split; [apply last_set|apply lookup_set]. }
  destruct Hafter as (Hwf1 & Hsize1 & Hlast1 & Hlook1). by apply Hhit.
Qed.

(** Tenant [t1] is loaded while the store is up, another call looking
    up [t2] meanwhile, and served while the store is down. *)
Lemma getTenantEnforcer_served_from_cache_witness :
  snd (getTenantEnforcer Scenario.storeDown 40000 Scenario.elevated [] 40001
         Scenario.elevated "t1"
         (fst (getTenantEnforcer Scenario.storeUp 1 Scenario.calm
                 [StepGet 2 Scenario.calm "t2"] 3
                 Scenario.calm "t1" (foldl call (tenantCache 0) []))))
  = Js.Ok (enforcerOf Scenario.modelT1).
Proof.
  assert (Hfirst : snd (getTenantEnforcer Scenario.storeUp 1 Scenario.calm
                          [StepGet 2 Scenario.calm "t2"] 3
                          Scenario.calm "t1" (foldl call (tenantCache 0) []))
                   = Js.Ok (enforcerOf Scenario.modelT1)) by reflexivity.
  exact (f_equal snd
           (getTenantEnforcer_served_from_cache 0 [] Scenario.storeUp 1
              Scenario.calm [StepGet 2 Scenario.calm "t2"] 3 Scenario.calm
              "t1" (enforcerOf Scenario.modelT1)
              Scenario.storeDown 40000 Scenario.elevated [] 40001
              Scenario.elevated Hfirst)).
Defined.

(** A call that is not the next to touch the cache has no such
    guarantee: after [t1] and then [t2] were loaded, a cleanup pass
    under pressure evicts [t1], the less recently used, and the call
    for [t1] has to load again, which fails with the store down. *)
Example getTenantEnforcer_after_another_tenant :
  let c1 := fst (getTenantEnforcer Scenario.storeUp 1 Scenario.calm [] 2
                   Scenario.calm "t1" (tenantCache 0)) in
  let c2 := fst (getTenantEnforcer Scenario.storeUp 3 Scenario.calm [] 4
                   Scenario.calm "t2" c1) in
  snd (getTenantEnforcer Scenario.storeDown 40000 Scenario.elevated [] 40001
         Scenario.elevated "t1" c2)
  = Js.Throw "store unavailable".
Proof. reflexivity. Qed.

(** X8.  A miss whose load fails turns into a denial and stores
    nothing: [getTenantEnforcer] rethrows the error and leaves the
    cache as the cleanup pass of [get], and the calls that ran while
    it was suspended, left it; when none ran there is still no entry
    for the tenant; [checkAccess] then answers [false] whatever the
    policy engine would have decided. *)
Theorem failed_load_caches_nothing_and_denies
    enforce s n1 m1 during n2 m2 t c msg :
  cache c !! t = None → createTenantEnforcer s t = Js.Throw msg →
  getTenantEnforcer s n1 m1 during n2 m2 t c
  = (steps during (cleanup n1 m1 c), Js.Throw msg)
  ∧ getTenantEnforcer s n1 m1 [] n2 m2 t c = (cleanup n1 m1 c, Js.Throw msg)
  ∧ cache (fst (getTenantEnforcer s n1 m1 [] n2 m2 t c)) !! t = None
  ∧ checkAccess enforce s n1 m1 during n2 m2 t c
    = (steps during (cleanup n1 m1 c), false)
  ∧ checkAccess enforce s n1 m1 [] n2 m2 t c = (cleanup n1 m1 c, false).
Proof.
  intros Hnone Hfail.
  assert (Hget : ∀ others, getTenantEnforcer s n1 m1 others n2 m2 t c
                 = (steps others (cleanup n1 m1 c), Js.Throw msg)).
  { intros others. unfold getTenantEnforcer, get.
    by rewrite (cleanup_None n1 m1 c t Hnone), Hfail. }
  split; [apply Hget|]. split; [apply (Hget [])|]. split; [|split].
  - rewrite Hget. simpl. by apply cleanup_None.
  - unfold checkAccess. by rewrite Hget.
  - unfold checkAccess. by rewrite Hget.
Qed.

(** With the store down, a request for the uncached tenant [t1] is
    denied even by an engine that allows everything. *)
Lemma failed_load_caches_nothing_and_denies_witness :
  snd (checkAccess (λ _, Js.Ok true) Scenario.storeDown 1 Scenario.calm [] 2
         Scenario.calm "t1" Scenario.twoTenants) = false.
Proof.
  assert (Hnone : cache Scenario.twoTenants !! "t1" = None) by reflexivity.
  assert (Hfail : createTenantEnforcer Scenario.storeDown "t1"
                  = Js.Throw "store unavailable") by reflexivity.
  destruct (failed_load_caches_nothing_and_denies (λ _, Js.Ok true)
              Scenario.storeDown 1 Scenario.calm [] 2 Scenario.calm "t1"
              Scenario.twoTenants _ Hnone Hfail) as (_ & _ & _ & _ & Hdeny).
  by rewrite Hdeny.
Defined.

(** X9.  The path of a notification.  The message that
    [refreshTenantAndNotify] publishes names the tenant refreshed and
    carries the identity of the publishing replica; delivered back to
    that replica it is discarded without a refresh; delivered to a
    replica whose [SERVER_ID] and port-derived identity both differ
    from that identity it triggers one refresh, of that tenant.  With
    the broker not ready nothing is published. *)
Theorem notification_path env s now mem tenant operation timestamp c msg :
  snd (refreshTenantAndNotify env s now mem true tenant operation timestamp c)
    = Some msg →
  Casbin.tenant msg = tenant
  ∧ serverId msg = Some (ownServerId env)
  ∧ (∀ s' now' mem' c',
       handleTenantRefresh env s' now' mem' msg c' = ([], c'))
  ∧ (∀ env' s' now' mem' c',
       SERVER_ID env' ≠ Some (ownServerId env) →
       defaultServerId env' ≠ ownServerId env →
       handleTenantRefresh env' s' now' mem' msg c'
       = ([tenant], refreshTenantPolicies s' now' mem' tenant c'))
  ∧ snd (refreshTenantAndNotify env s now mem false tenant operation
           timestamp c) = None.
Proof.
  simpl. intros [= <-]. simpl. repeat split.
  - intros s' now' mem' c'. unfold handleTenantRefresh.
    by rewrite isOwnMessage_ownServerId.
  - intros env' s' now' mem' c' Hid Hdef.
    unfold handleTenantRefresh, isOwnMessage. simpl.
    rewrite !bool_decide_eq_false_2; [done| |]; congruence.
Qed.

(** A write on [replica-a] reaches a replica on port 3001. *)
Lemma notification_path_witness :
  handleTenantRefresh {| SERVER_ID := None; PORT := Some "3001" |}
    Scenario.storeUp 5 Scenario.calm
    {| tenant := "t1"; operation := "add-permission";
       serverId := Some "replica-a"; timestamp := "now" |} Scenario.twoTenants
  = (["t1"], refreshTenantPolicies Scenario.storeUp 5 Scenario.calm "t1"
               Scenario.twoTenants).
Proof.
  assert (Hpub : snd (refreshTenantAndNotify Scenario.replicaA Scenario.storeUp
                        1 Scenario.calm true "t1" "add-permission" "now"
                        Scenario.twoTenants)
                 = Some {| tenant := "t1"; operation := "add-permission";
                           serverId := Some "replica-a"; timestamp := "now" |})
    by reflexivity.
  destruct (notification_path _ _ _ _ _ _ _ _ _ Hpub) as (_ & _ & _ & Hpeer & _).
  apply Hpeer; discriminate.
Defined.

End CasbinMore.

(** ** The adapter: writes scoped to the tenant *)

Section AdapterWritesProps.
Import TenantAwareAdapter AdapterWrites.

Lemma insert_Ok uniqueIndex s row s' :
  insert uniqueIndex s row = Js.Ok s' →
  s' = {| available := true; casbin_rule := casbin_rule s ++ [row] |}.
Proof.
  unfold insert. destruct (available s); [|discriminate].
  destruct (_ && _); [discriminate|]. by intros [= <-].
Qed.

Lemma addPolicy_Ok uniqueIndex tenant s sec kind rule s' :
  addPolicy uniqueIndex tenant s sec kind rule = Js.Ok s' →
  Js.truthy_opt tenant = true
  ∧ s' = {| available := true;
            casbin_rule := casbin_rule s ++ [rowOf kind (scoped tenant kind rule)] |}.
Proof.
  unfold addPolicy. destruct (Js.truthy_opt tenant); simpl; [|discriminate].
  intros Hins. split; [done|]. by apply insert_Ok in Hins.
Qed.

(** The row written for a permission or a grouping line belongs to the
    tenant of the adapter, whatever the line says. *)
Lemma scoped_row_p tenant rule :
  ptype (rowOf "p" (scoped tenant "p" rule)) = "p"
  ∧ v3 (rowOf "p" (scoped tenant "p" rule)) = tenant.
Proof. done. Qed.

Lemma scoped_row_g tenant rule :
  ptype (rowOf "g" (scoped tenant "g" rule)) = "g"
  ∧ v2 (rowOf "g" (scoped tenant "g" rule)) = tenant.
Proof. done. Qed.

Lemma loadPolicy_up tenant rows :
  Js.truthy_opt tenant = true →
  loadPolicy tenant {| available := true; casbin_rule := rows |} emptyModel
  = Js.Ok {| p := distinct [] (policyArray
                    <$> filter (λ r, ptype r = "p" ∧ sql_eq (v3 r) tenant) rows);
             g := distinct [] (groupingArray
                    <$> filter (λ r, ptype r = "g" ∧ sql_eq (v2 r) tenant) rows) |}.
Proof.
  intros Ht. unfold loadPolicy, select. rewrite Ht. simpl.
  by rewrite foldl_addPolicy_p, foldl_addPolicy_g.
Qed.

(** X10.  What the adapter adds, [loadPolicy] of the same tenant brings
    back, and no other tenant sees: after [addPolicy] of a permission
    line the model loaded for the tenant is the model loaded before
    with the array of the row written added to it as the policy engine
    adds a line, that is, appended unless the model holds it already;
    the result of loading any other tenant is unchanged.  The row
    carries the adapter's tenant in place of the fourth value given:
    the line [sub, obj, act, x] comes back as [sub, obj, act, tenant]. *)
Theorem addPolicy_then_loadPolicy uniqueIndex (T : string) s sec rule s' m :
  addPolicy uniqueIndex (Some T) s sec "p" rule = Js.Ok s' →
  loadPolicy (Some T) s emptyModel = Js.Ok m →
  let line := policyArray (rowOf "p" (scoped (Some T) "p" rule)) in
  loadPolicy (Some T) s' emptyModel
  = Js.Ok (TenantAwareAdapter.addPolicy "p" "p" line m)
  ∧ (line ∉ p m →
     loadPolicy (Some T) s' emptyModel
     = Js.Ok {| p := p m ++ [line]; g := g m |})
  ∧ (line ∈ p m → loadPolicy (Some T) s' emptyModel = Js.Ok m)
  ∧ (∀ T' : string, T' ≠ T →
       loadPolicy (Some T') s' emptyModel = loadPolicy (Some T') s emptyModel)
  ∧ (∀ sub obj act x, rule = [Some sub; Some obj; Some act; x] →
       line = [Some sub; Some obj; Some act; Some T]).
Proof.
  intros [Ht ->]%addPolicy_Ok Hload line.
  pose proof (loadPolicy_Ok _ _ _ Hload) as (_ & Hup & Hp & Hg).
  assert (Hafter : loadPolicy (Some T)
            {| available := true;
               casbin_rule := casbin_rule s
                              ++ [rowOf "p" (scoped (Some T) "p" rule)] |}
            emptyModel
            = Js.Ok (TenantAwareAdapter.addPolicy "p" "p" line m)).
  { rewrite loadPolicy_up by done. rewrite !filter_app, !fmap_app.
    rewrite (filter_cons_True (λ r, ptype r = "p" ∧ _)) by done.
    rewrite (filter_cons_False (λ r, ptype r = "g" ∧ _)) by (by intros [? _]).
    rewrite !filter_nil. simpl. rewrite app_nil_r, distinct_snoc, <- Hp, <- Hg.
    fold line. unfold TenantAwareAdapter.addPolicy. simpl.
    destruct (hasPolicy (p m) line); [|done].
    rewrite app_nil_r. by destruct m. }
  split; [exact Hafter|]. split; [|split; [|split]].
  - intros Hnew%hasPolicy_false. rewrite Hafter.
    unfold TenantAwareAdapter.addPolicy. simpl. by rewrite Hnew.
  - intros Hheld%hasPolicy_true. rewrite Hafter.
    unfold TenantAwareAdapter.addPolicy. simpl. by rewrite Hheld.
  - intros T' Hne. unfold loadPolicy, select.
    destruct (negb (Js.truthy_opt (Some T'))); [done|].
    cbn [available casbin_rule]. rewrite Hup, !filter_app.
    rewrite (filter_cons_False (λ r, ptype r = "p" ∧ _));
      [|intros [_ ?]; simpl in *; congruence].
    rewrite (filter_cons_False (λ r, ptype r = "g" ∧ _)) by (by intros [? _]).
    by rewrite !filter_nil, !app_nil_r.
  - by intros sub obj act x ->.
Qed.

Lemma filter_all {A : Type} (P : A → Prop) `{!∀ x, Decision (P x)} (l : list A) :
  (∀ x, x ∈ l → P x) → filter P l = l.
Proof.
  induction l as [|x l IH]; intros Hall; [done|].
  rewrite filter_cons_True by (apply Hall; left).
  rewrite IH; [done|]. intros y Hy. apply Hall. by right.
Qed.

Lemma filter_none {A : Type} (P : A → Prop) `{!∀ x, Decision (P x)} (l : list A) :
  (∀ x, x ∈ l → ¬ P x) → filter P l = [].
Proof.
  induction l as [|x l IH]; intros Hall; [done|].
  rewrite filter_cons_False by (apply Hall; left).
  apply IH. intros y Hy. apply Hall. by right.
Qed.

Lemma sql_eq_None column : ¬ sql_eq column None.
Proof. destruct column; simpl; tauto. Qed.

(** A line of fewer than five values leaves the fifth parameter of the
    statements [NULL]. *)
Lemma scoped_fifth_None tenant kind rule :
  length rule < 5 → value (scoped tenant kind rule) 4 = None.
Proof.
  intros Hlen. unfold scoped, value, values5.
  assert (Hnone : rule !! 4 = None) by (apply lookup_ge_None_2; lia).
  repeat case_decide; simpl; unfold TenantEnforcerCache.Rule;
    by rewrite Hnone.
Qed.

(** X11.  [removePolicy] does not undo [addPolicy].  For a line of
    fewer than five values the statement compares the fifth column
    with [NULL], which no row satisfies: on an available store the call
    succeeds and leaves every row in place, the row that [addPolicy]
    wrote for the same line included. *)
Theorem removePolicy_keeps_short_lines uniqueIndex tenant sec kind rule :
  length rule < 5 →
  (∀ s, Js.truthy_opt tenant = true → available s = true →
        removePolicy tenant s sec kind rule = Js.Ok s)
  ∧ (∀ s s1, addPolicy uniqueIndex tenant s sec kind rule = Js.Ok s1 →
       removePolicy tenant s1 sec kind rule = Js.Ok s1
       ∧ rowOf kind (scoped tenant kind rule) ∈ casbin_rule s1).
Proof.
  intros Hlen.
  assert (Hgen : ∀ s, Js.truthy_opt tenant = true → available s = true →
                      removePolicy tenant s sec kind rule = Js.Ok s).
  { intros s Ht Hup. unfold removePolicy, delete_where. rewrite Ht, Hup. simpl.
    rewrite scoped_fifth_None by done.
    rewrite filter_all.
    - destruct s; simpl in *. by subst.
    - intros r _ (_ & _ & _ & _ & _ & Hfifth). by apply sql_eq_None in Hfifth. }
  split; [exact Hgen|].
  intros s s1 [Ht ->]%addPolicy_Ok. split.
  - by apply Hgen.
  - simpl. apply elem_of_app. right. left.
Qed.

(** The usual permission line of four values survives its removal. *)
Lemma removePolicy_keeps_short_lines_witness :
  removePolicy (Some "t1") Scenario.storeUp "p" "p"
    [Some "admin"; Some "doc1"; Some "read"; Some "t1"]
  = Js.Ok Scenario.storeUp.
Proof.
  assert (Hlen : length [Some "admin"; Some "doc1"; Some "read"; Some "t1"] < 5)
    by (simpl; lia).
  apply (proj1 (removePolicy_keeps_short_lines false (Some "t1") "p" "p" _ Hlen));
    reflexivity.
Defined.

Lemma addAll_Ok uniqueIndex tenant kind rules s s' :
  addAll uniqueIndex tenant kind rules s = Js.Ok s' →
  available s = true →
  available s' = true
  ∧ casbin_rule s'
    = casbin_rule s ++ ((λ rule, rowOf kind (scoped tenant kind rule)) <$> rules).
Proof.
  revert s. induction rules as [|rule rules IH]; intros s; simpl.
  - intros [= <-] Hup. by rewrite app_nil_r.
  - destruct (addPolicy uniqueIndex tenant s kind kind rule) as [s1|msg] eqn:Hadd;
      simpl; [|discriminate].
    apply addPolicy_Ok in Hadd as [_ ->]. intros Hrest _.
    destruct (IH _ Hrest) as [Hup' Hrows]; [done|].
    split; [done|]. rewrite Hrows. simpl. by rewrite <- app_assoc.
Qed.

(** What a successful [savePolicy] leaves in the table. *)
Lemma savePolicy_Ok uniqueIndex tenant s model s' :
  savePolicy uniqueIndex tenant s model = Js.Ok s' →
  Js.truthy_opt tenant = true ∧ available s' = true
  ∧ casbin_rule s'
    = filter (λ r, ¬ ownedBy tenant r) (casbin_rule s)
      ++ ((λ policy, rowOf "p" (scoped tenant "p" (policy ++ [tenant])))
            <$> p model)
      ++ ((λ policy, rowOf "g" (scoped tenant "g" (take 2 policy ++ [tenant])))
            <$> g model).
Proof.
  unfold savePolicy, delete_where.
  destruct (Js.truthy_opt tenant); simpl; [|discriminate].
  destruct (available s); simpl; [|discriminate].
  destruct (addAll uniqueIndex tenant "p" _ _) as [s1|msg] eqn:Hp; simpl;
    [|discriminate].
  intros Hg.
  apply addAll_Ok in Hp as [Hup1 Hrows1]; [|done].
  apply addAll_Ok in Hg as [Hup2 Hrows2]; [|done].
  split; [done|]. split; [done|].
  rewrite Hrows2, Hrows1. simpl. rewrite <- app_assoc.
  by rewrite <- !list_fmap_compose.
Qed.

(** X12.  [savePolicy] rewrites the rows of its tenant and no others:
    after a successful call the rows that do not belong to the tenant
    are the ones that were there, in their order, followed by one row
    per line of the model, each belonging to the tenant. *)
Theorem savePolicy_touches_own_rows_only uniqueIndex (T : string) s model s' :
  savePolicy uniqueIndex (Some T) s model = Js.Ok s' →
  ∃ written,
    casbin_rule s'
    = filter (λ r, ¬ ownedBy (Some T) r) (casbin_rule s) ++ written
    ∧ length written = length (p model) + length (g model)
    ∧ Forall (λ r, tenantOf r = Some T) written
    ∧ ∀ r, ¬ ownedBy (Some T) r → (r ∈ casbin_rule s' ↔ r ∈ casbin_rule s).
Proof.
  intros (_ & _ & Hrows)%savePolicy_Ok.
  eexists. split; [exact Hrows|].
  assert (Hown : Forall (λ r, tenantOf r = Some T)
            (((λ policy, rowOf "p" (scoped (Some T) "p" (policy ++ [Some T])))
                <$> p model)
             ++ ((λ policy, rowOf "g" (scoped (Some T) "g"
                                        (take 2 policy ++ [Some T])))
                   <$> g model))).
  { apply Forall_app. split; apply Forall_fmap, Forall_forall; by intros. }
  split; [by rewrite length_app, !length_fmap|]. split; [exact Hown|].
  intros r Hnot. rewrite Hrows, elem_of_app, list_elem_of_filter.
  split; [|tauto]. intros [[_ ?]|Hin]; [done|].
  exfalso. apply Hnot.
  eapply Forall_forall in Hown; [|exact Hin].
  unfold tenantOf, ownedBy in *.
  destruct (decide (ptype r = "p")) as [Hp|Hp];
    [left; split; [done|by apply sql_eq_Some]|].
  destruct (decide (ptype r = "g")) as [Hg|Hg]; [|done].
  right. split; [done|by apply sql_eq_Some].
Qed.

(** The rows of [t2] are in the table after [t1] has saved its model. *)
Lemma savePolicy_touches_own_rows_only_witness :
  savePolicy false (Some "t1") Scenario.storeUp Scenario.modelT1
  = Js.Ok Scenario.storeAfterSave
  ∧ TenantAwareAdapter.mkCasbinRule "g" (Some "bob") (Some "admin") (Some "t2")
      None None ∈ casbin_rule Scenario.storeAfterSave.
Proof.
  assert (Hsave : savePolicy false (Some "t1") Scenario.storeUp Scenario.modelT1
                  = Js.Ok Scenario.storeAfterSave) by reflexivity.
  split; [exact Hsave|].
  destruct (savePolicy_touches_own_rows_only false "t1" _ _ _ Hsave)
    as (written & _ & _ & _ & Hother).
  apply Hother.
  - unfold ownedBy. simpl. intros [[? _]|[_ ?]]; discriminate.
  - simpl. repeat constructor.
Defined.

(** A new line of [t1] is loaded for [t1] and not for [t2]; the line
    [t1] already holds, added once more, is loaded once. *)
Lemma addPolicy_then_loadPolicy_witness :
  addPolicy false (Some "t1") Scenario.storeUp "p" "p"
    [Some "editor"; Some "doc3"; Some "read"; Some "t9"]
  = Js.Ok Scenario.storeAfterAdd
  ∧ loadPolicy (Some "t1") Scenario.storeAfterAdd emptyModel
    = Js.Ok {| p := [[Some "admin"; Some "doc1"; Some "read"; Some "t1"];
                     [Some "editor"; Some "doc3"; Some "read"; Some "t1"]];
               g := [[Some "alice"; Some "admin"; Some "t1"]] |}
  ∧ loadPolicy (Some "t2") Scenario.storeAfterAdd emptyModel
    = loadPolicy (Some "t2") Scenario.storeUp emptyModel
  ∧ match addPolicy false (Some "t1") Scenario.storeUp "p" "p"
            [Some "admin"; Some "doc1"; Some "read"; Some "t1"] with
    | Js.Ok again =>
        length (casbin_rule again) = 5
        ∧ loadPolicy (Some "t1") again emptyModel = Js.Ok Scenario.modelT1
    | Js.Throw _ => False
    end.
Proof.
  assert (Hadd : addPolicy false (Some "t1") Scenario.storeUp "p" "p"
                   [Some "editor"; Some "doc3"; Some "read"; Some "t9"]
                 = Js.Ok Scenario.storeAfterAdd) by reflexivity.
  assert (Hload : loadPolicy (Some "t1") Scenario.storeUp emptyModel
                  = Js.Ok Scenario.modelT1) by reflexivity.
  split; [exact Hadd|].
  destruct (addPolicy_then_loadPolicy false "t1" _ _ _ _ _ Hadd Hload)
    as (Hown & _ & _ & Hother & _).
  split; [rewrite Hown; reflexivity|].
  split; [apply Hother; discriminate|].
  split; reflexivity.
Defined.

Lemma store_up_eta (s : Store) :
  available s = true →
  s = {| available := true; casbin_rule := casbin_rule s |}.
Proof. destruct s; simpl. by intros ->. Qed.

(** X13.  Saving and loading again is not the identity on permission
    lines.  After a successful [savePolicy] of a model whose permission
    lines have three values and a fourth (as [loadPolicy] builds them),
    [loadPolicy] of the same tenant returns each permission line with
    the tenant in the fourth place and once more in a fifth, and each
    grouping line as its first two values and the tenant; lines that
    become equal this way are loaded once, so the model loaded never
    has more lines than the model saved, and may have fewer. *)
Theorem savePolicy_then_loadPolicy uniqueIndex (T : string) s model s' :
  savePolicy uniqueIndex (Some T) s model = Js.Ok s' →
  Forall (λ l, ∃ sub obj act x, l = [Some sub; Some obj; Some act; x])
         (p model) →
  Forall (λ l, 2 ≤ length l) (g model) →
  ∃ loaded,
    loadPolicy (Some T) s' emptyModel = Js.Ok loaded
    ∧ p loaded = distinct [] ((λ l, take 3 l ++ [Some T; Some T]) <$> p model)
    ∧ g loaded = distinct [] ((λ l, take 2 l ++ [Some T]) <$> g model)
    ∧ (∀ line, line ∈ p loaded
               ↔ ∃ l, l ∈ p model ∧ line = take 3 l ++ [Some T; Some T])
    ∧ (∀ line, line ∈ g loaded
               ↔ ∃ l, l ∈ g model ∧ line = take 2 l ++ [Some T])
    ∧ NoDup (p loaded) ∧ NoDup (g loaded)
    ∧ (NoDup ((λ l, take 3 l) <$> p model) →
       p loaded = (λ l, take 3 l ++ [Some T; Some T]) <$> p model).
Proof.
  intros (Ht & Hup & Hrows)%savePolicy_Ok Hp Hg.
  eexists. split.
  { rewrite (store_up_eta s' Hup), Hrows, loadPolicy_up by done.
    rewrite !filter_app, !fmap_app.
    rewrite (filter_none (λ r, ptype r = "p" ∧ _) (filter _ _)).
    2:{ intros r [Hnot _]%list_elem_of_filter Hown. apply Hnot. by left. }
    rewrite (filter_none (λ r, ptype r = "g" ∧ _) (filter _ _)).
    2:{ intros r [Hnot _]%list_elem_of_filter Hown. apply Hnot. by right. }
    rewrite (filter_all (λ r, ptype r = "p" ∧ _) (_ <$> p model)).
    2:{ intros r (l & -> & _)%list_elem_of_fmap. done. }
    rewrite (filter_none (λ r, ptype r = "p" ∧ _) (_ <$> g model)).
    2:{ intros r (l & -> & _)%list_elem_of_fmap [? _]. done. }
    rewrite (filter_none (λ r, ptype r = "g" ∧ _) (_ <$> p model)).
    2:{ intros r (l & -> & _)%list_elem_of_fmap [? _]. done. }
    rewrite (filter_all (λ r, ptype r = "g" ∧ _) (_ <$> g model)).
    2:{ intros r (l & -> & _)%list_elem_of_fmap. done. }
    simpl. rewrite !app_nil_r, <- !list_fmap_compose.
    rewrite (Forall_fmap_ext_1 _ (λ l, take 3 l ++ [Some T; Some T]) (p model)).
    2:{ eapply Forall_impl; [exact Hp|].
        by intros l (sub & obj & act & x & ->). }
    rewrite (Forall_fmap_ext_1 _ (λ l, take 2 l ++ [Some T]) (g model)).
    2:{ eapply Forall_impl; [exact Hg|].
        intros [|u [|r rest]] Hlen; simpl in Hlen; try lia. done. }
    done. }
  simpl. split; [done|]. split; [done|].
  split; [|split; [|split; [|split]]].
  - intros line. rewrite distinct_elem, list_elem_of_fmap, elem_of_nil.
    split; [intros [(l & -> & Hl) _]; eauto|intros (l & Hl & ->); eauto].
  - intros line. rewrite distinct_elem, list_elem_of_fmap, elem_of_nil.
    split; [intros [(l & -> & Hl) _]; eauto|intros (l & Hl & ->); eauto].
  - apply distinct_NoDup.
  - apply distinct_NoDup.
  - intros Hnd. apply distinct_id; [|intros line _; apply not_elem_of_nil].
    change ((λ l, take 3 l ++ [Some T; Some T]) <$> p model)
      with (((λ l, l ++ [Some T; Some T]) ∘ take 3) <$> p model).
    rewrite list_fmap_compose. apply (NoDup_fmap_2 _). exact Hnd.
Qed.

(** Two lines of [t1] that differ in the fourth value only are saved
    as the same row and come back as one line. *)
Lemma savePolicy_then_loadPolicy_witness :
  savePolicy false (Some "t1") Scenario.storeUp Scenario.modelTwice
  = Js.Ok Scenario.storeAfterSaveTwice
  ∧ loadPolicy (Some "t1") Scenario.storeAfterSaveTwice emptyModel
    = Js.Ok {| p := [[Some "admin"; Some "doc1"; Some "read"; Some "t1"; Some "t1"]];
               g := [] |}.
Proof.
  assert (Hsave : savePolicy false (Some "t1") Scenario.storeUp
                    Scenario.modelTwice
                  = Js.Ok Scenario.storeAfterSaveTwice) by reflexivity.
  assert (Hp : Forall (λ l, ∃ sub obj act x,
                         l = [Some sub; Some obj; Some act; x])
                 (p Scenario.modelTwice))
    by (repeat constructor; by eexists _, _, _, _).
  assert (Hg : Forall (λ l, 2 ≤ length l) (g Scenario.modelTwice))
    by (repeat constructor).
  split; [exact Hsave|].
  destruct (savePolicy_then_loadPolicy false "t1" _ _ _ Hsave Hp Hg)
    as (loaded & Hload & Hlines & Hgroups & _).
  rewrite Hload. f_equal. destruct loaded as [lines groups].
  simpl in Hlines, Hgroups. by rewrite Hlines, Hgroups.
Defined.

End AdapterWritesProps.

(** ** More on the request queue: slots, order and counters *)

Section QueueMore.
Import RequestQueue.

(** [processQueue] either leaves the queue as it is, because no slot is
    free or nothing waits, or starts the entry at the head. *)
Lemma processQueue_cases now q :
  (processQueue now q = (q, None)
   ∧ (maxConcurrent q ≤ running q ∨ queue q = []))
  ∨ (∃ entry rest q',
       queue q = entry :: rest ∧ running q < maxConcurrent q
       ∧ processQueue now q = (q', Some (task entry))
       ∧ queue q' = rest ∧ running q' = S (running q)
       ∧ maxConcurrent q' = maxConcurrent q
       ∧ totalRequests (stats q') = totalRequests (stats q)
       ∧ queuedRequests (stats q') = queuedRequests (stats q)
       ∧ rejectedRequests (stats q') = rejectedRequests (stats q)).
Proof.
  unfold processQueue.
  destruct (maxConcurrent q <=? running q) eqn:Hslot; simpl.
  - left. apply Nat.leb_le in Hslot. auto.
  - apply Nat.leb_gt in Hslot.
    destruct (queue q) as [|entry rest] eqn:Hq; simpl.
    + left. auto.
    + right. eexists entry, rest, _. repeat split; done.
Qed.

(** [add] either rejects, touching two counters only, or appends the
    entry and calls [processQueue]. *)
Lemma add_cases now t q :
  (maxQueueSize q ≤ length (queue q)
   ∧ snd (add now t q) = Js.Throw queueFull
   ∧ queue (fst (add now t q)) = queue q
   ∧ running (fst (add now t q)) = running q
   ∧ maxConcurrent (fst (add now t q)) = maxConcurrent q
   ∧ totalRequests (stats (fst (add now t q))) = S (totalRequests (stats q))
   ∧ queuedRequests (stats (fst (add now t q))) = queuedRequests (stats q)
   ∧ rejectedRequests (stats (fst (add now t q)))
     = S (rejectedRequests (stats q)))
  ∨ (length (queue q) < maxQueueSize q
     ∧ ∃ q', queue q' = queue q ++ [{| task := t; timestamp := now |}]
       ∧ running q' = running q
       ∧ maxConcurrent q' = maxConcurrent q
       ∧ totalRequests (stats q') = S (totalRequests (stats q))
       ∧ queuedRequests (stats q') = S (queuedRequests (stats q))
       ∧ rejectedRequests (stats q') = rejectedRequests (stats q)
       ∧ add now t q
         = (fst (processQueue now q'), Js.Ok (snd (processQueue now q')))).
Proof.
  unfold add.
  destruct (maxQueueSize q <=? length (queue q)) eqn:Hfull.
  - left. apply Nat.leb_le in Hfull. simpl. repeat split; done.
  - right. apply Nat.leb_gt in Hfull. split; [done|].
    match goal with |- context [processQueue now ?entered] =>
      exists entered end.
    simpl. repeat split. by destruct (processQueue now _).
Qed.

(** One event: the slots, the order of the tasks and the counters. *)
Lemma step_facts q e :
  (running q ≤ maxConcurrent q → running (step q e) ≤ maxConcurrent q)
  ∧ maxConcurrent (step q e) = maxConcurrent q
  ∧ startedBy q e ++ (task <$> queue (step q e))
    = (task <$> queue q) ++ acceptedBy q e
  ∧ totalRequests (stats (step q e))
    = totalRequests (stats q) + length (acceptedBy q e)
      + (rejectedRequests (stats (step q e)) - rejectedRequests (stats q))
  ∧ queuedRequests (stats (step q e))
    = queuedRequests (stats q) + length (acceptedBy q e)
  ∧ rejectedRequests (stats q) ≤ rejectedRequests (stats (step q e)).
Proof.
  destruct e as [now t| |now]; simpl.
  - destruct (add_cases now t q)
      as [(_ & Hsnd & Hq & Hr & Hc & Ht & Hqd & Hrj)
         |(_ & q' & Hq & Hr & Hc & Ht & Hqd & Hrj & ->)].
    + rewrite Hsnd, Hq, Hr, Hc, Ht, Hqd, Hrj. simpl.
      rewrite app_nil_r. repeat split; lia.
    + simpl.
      destruct (processQueue_cases now q')
        as [[-> _]|(entry & rest & q'' & Hhead & Hfree & -> & Hq'' & Hr''
                    & Hc'' & Ht'' & Hqd'' & Hrj'')]; simpl.
      * rewrite Hq, Hr, Hc, Ht, Hqd, Hrj, fmap_app. simpl.
        repeat split; lia.
      * rewrite Hq'', Hr'', Hc'', Ht'', Hqd'', Hrj'', Ht, Hqd, Hrj.
        assert (Horder : task entry :: (task <$> rest)
                         = (task <$> queue q) ++ [t]).
        { change (task <$> entry :: rest = (task <$> queue q) ++ [t]).
          by rewrite <- Hhead, Hq, fmap_app. }
        rewrite Horder. simpl. repeat split; lia.
  - rewrite app_nil_r. repeat split; lia.
  - destruct (processQueue_cases now q)
      as [[-> _]|(entry & rest & q'' & Hhead & Hfree & -> & Hq'' & Hr''
                  & Hc'' & Ht'' & Hqd'' & Hrj'')]; simpl.
    + rewrite app_nil_r. repeat split; lia.
    + rewrite Hq'', Hr'', Hc'', Ht'', Hqd'', Hrj'', Hhead, app_nil_r. simpl.
      repeat split; lia.
Qed.

Lemma run_cons e events q : run (e :: events) q = run events (step q e).
Proof. done. Qed.

(** The same over a run. *)
Lemma run_facts events : ∀ q,
  running q ≤ maxConcurrent q →
  totalRequests (stats q) = queuedRequests (stats q) + rejectedRequests (stats q) →
  running (run events q) ≤ maxConcurrent q
  ∧ started events q ++ (task <$> queue (run events q))
    = (task <$> queue q) ++ accepted events q
  ∧ totalRequests (stats (run events q))
    = queuedRequests (stats (run events q))
      + rejectedRequests (stats (run events q))
  ∧ queuedRequests (stats (run events q))
    = queuedRequests (stats q) + length (accepted events q).
Proof.
  induction events as [|e events IH]; intros q Hslots Hstats.
  - simpl. rewrite app_nil_r. repeat split; lia.
  - destruct (step_facts q e) as (Hr & Hc & Horder & Ht & Hqd & Hrj).
    destruct (IH (step q e)) as (Hr' & Horder' & Ht' & Hqd');
      [rewrite Hc; auto|lia|].
    rewrite run_cons. simpl started. simpl accepted.
    rewrite Hc in Hr'. split; [done|]. split; [|split; [done|]].
    + rewrite <- app_assoc, Horder', app_assoc, Horder, app_assoc. done.
    + rewrite Hqd', Hqd, length_app. lia.
Qed.

(** X14.  The queue never runs more than [maxConcurrent] tasks at a
    time: the running count stays within the limit over every sequence
    of calls of [add], settled tasks and scheduled dispatches, starting
    from the constructor. *)
Theorem running_within_maxConcurrent (concurrent queued : nat)
    (events : list Event) :
  running (run events (new concurrent queued)) ≤ concurrent.
Proof.
  destruct (run_facts events (new concurrent queued)) as [Hslots _];
    simpl; [lia|done|done].
Qed.

(** X15.  Tasks start in the order in which they were accepted, and
    none is lost or started twice: at every moment the tasks started so
    far, followed by the tasks still waiting, are exactly the tasks
    accepted so far, in order of arrival. *)
Theorem tasks_start_in_arrival_order (concurrent queued : nat)
    (events : list Event) :
  let q0 := new concurrent queued in
  started events q0 ++ (task <$> queue (run events q0)) = accepted events q0.
Proof.
  intros q0.
  destruct (run_facts events q0) as (_ & Horder & _); [simpl; lia|done|].
  exact Horder.
Qed.

(** X16.  The counters reported by [getStats]: [totalRequests] is the
    sum of [queuedRequests] and [rejectedRequests], and
    [queuedRequests] is cumulative: it counts the tasks ever accepted,
    which are the tasks started so far and the tasks waiting now. *)
Theorem stats_account_for_every_request (concurrent queued : nat)
    (events : list Event) :
  let q0 := new concurrent queued in
  let q := run events q0 in
  totalRequests (stats q) = queuedRequests (stats q) + rejectedRequests (stats q)
  ∧ queuedRequests (stats q) = length (accepted events q0)
  ∧ queuedRequests (stats q) = length (started events q0) + length (queue q).
Proof.
  intros q0 q.
  destruct (run_facts events q0) as (_ & Horder & Ht & Hqd); [simpl; lia|done|].
  fold q in Horder, Ht, Hqd. simpl in Hqd.
  split; [done|]. split; [done|].
  apply (f_equal length) in Horder.
  rewrite !length_app, !length_fmap in Horder. simpl in Horder. lia.
Qed.

Lemma deliver_facts l e l' :
  deliver l e = Some l' →
  running (state l) ≤ maxConcurrent (state l) →
  (queue (state l) ≠ [] →
   maxConcurrent (state l) ≤ running (state l) + immediates l) →
  maxConcurrent (state l') = maxConcurrent (state l)
  ∧ running (state l') ≤ maxConcurrent (state l)
  ∧ (queue (state l') ≠ [] →
     maxConcurrent (state l) ≤ running (state l') + immediates l').
Proof.
  destruct l as [q pending]. simpl.
  destruct e as [now t| |now]; simpl.
  - intros [= <-] Hslots Hbusy. simpl.
    destruct (add_cases now t q)
      as [(_ & _ & Hq & Hr & Hc & _)|(_ & q' & Hq & Hr & Hc & _ & _ & _ & ->)].
    + rewrite Hq, Hr, Hc. auto.
    + simpl.
      destruct (processQueue_cases now q')
        as [[-> Hwhy]|(entry & rest & q'' & Hhead & Hfree & -> & Hq'' & Hr''
                       & Hc'' & _)]; simpl.
      * rewrite Hr, Hc. split; [done|]. split; [done|].
        intros _. destruct Hwhy as [Hfull|Hempty]; [lia|].
        rewrite Hq in Hempty. by destruct (queue q).
      * rewrite Hq in Hhead. rewrite Hq'', Hr'', Hc'', Hc, Hr.
        rewrite Hr, Hc in Hfree. split; [done|].
        split; [lia|]. intros Hrest.
        destruct (queue q) as [|first others] eqn:Hwait.
        -- simpl in Hhead. injection Hhead as _ <-. done.
        -- assert (Hpending : maxConcurrent q ≤ running q + pending)
             by (by apply Hbusy).
           lia.
  - destruct (0 <? running q) eqn:Hruns; [|discriminate].
    apply Nat.ltb_lt in Hruns.
    intros [= <-] Hslots Hbusy. simpl. split; [done|]. split; [lia|].
    intros Hwait. specialize (Hbusy Hwait). lia.
  - destruct pending as [|pending]; [discriminate|].
    intros [= <-] Hslots Hbusy. simpl.
    destruct (processQueue_cases now q)
      as [[-> Hwhy]|(entry & rest & q'' & Hhead & Hfree & -> & Hq'' & Hr''
                     & Hc'' & _)]; simpl.
    + split; [done|]. split; [done|]. intros Hwait.
      destruct Hwhy as [Hfull|Hempty]; [lia|done].
    + rewrite Hq'', Hr'', Hc''. split; [done|]. split; [lia|].
      intros _. assert (Hwait : queue q ≠ []) by (by rewrite Hhead).
      specialize (Hbusy Hwait). lia.
Qed.

Lemma deliverAll_facts events : ∀ l l',
  deliverAll events l = Some l' →
  running (state l) ≤ maxConcurrent (state l) →
  (queue (state l) ≠ [] →
   maxConcurrent (state l) ≤ running (state l) + immediates l) →
  running (state l') ≤ maxConcurrent (state l)
  ∧ (queue (state l') ≠ [] →
     maxConcurrent (state l) ≤ running (state l') + immediates l').
Proof.
  induction events as [|e events IH]; intros l l'; simpl.
  - intros [= <-]. auto.
  - destruct (deliver l e) as [l1|] eqn:Hstep; [|discriminate].
    intros Hrest Hslots Hbusy.
    destruct (deliver_facts _ _ _ Hstep Hslots Hbusy) as (Hc & Hslots1 & Hbusy1).
    rewrite <- Hc in *. by apply IH.
Qed.

(** X17.  No waiting task is stranded.  In the event loop (a task
    settles only while it runs, and every settled task schedules one
    [processQueue] callback), whenever tasks wait, every free slot has
    a callback pending; hence once the scheduled callbacks have all
    run, tasks wait only while all [maxConcurrent] slots are busy. *)
Theorem waiting_task_is_not_stranded (concurrent queued : nat)
    (events : list Event) (l : Loop) :
  deliverAll events {| state := new concurrent queued; immediates := 0 |}
  = Some l →
  (queue (state l) ≠ [] → concurrent ≤ running (state l) + immediates l)
  ∧ (queue (state l) ≠ [] → immediates l = 0 → running (state l) = concurrent).
Proof.
  intros Hrun.
  destruct (deliverAll_facts _ _ _ Hrun) as [Hslots Hbusy]; simpl; [lia|done|].
  simpl in Hslots, Hbusy. split; [done|].
  intros Hwait Hnone. specialize (Hbusy Hwait). lia.
Qed.

(** With one slot: the first task has settled while the second waits,
    and the callback that will start it is pending. *)
Lemma waiting_task_is_not_stranded_witness :
  let l := {| state := run Scenario.settling (new 1 1); immediates := 1 |} in
  deliverAll Scenario.settling {| state := new 1 1; immediates := 0 |} = Some l
  ∧ task <$> queue (state l) = [2]
  ∧ running (state l) = 0
  ∧ 1 ≤ running (state l) + immediates l.
Proof.
  intros l.
  assert (Hrun : deliverAll Scenario.settling
                   {| state := new 1 1; immediates := 0 |} = Some l)
    by reflexivity.
  split; [exact Hrun|]. split; [reflexivity|]. split; [reflexivity|].
  destruct (waiting_task_is_not_stranded 1 1 _ _ Hrun) as [Hbusy _].
  apply Hbusy. discriminate.
Defined.

End QueueMore.

(** ** More on the rate limiter: one quota per client identity *)

Section RateLimitMore.
Import RateLimit.

(** A check reads and writes the record of its client identity only. *)
Lemma rateLimit_same_record windowMs maxRequests
    (r1 r2 : gmap string (list Z)) ip now :
  default [] (r1 !! Js.or_else ip "unknown")
  = default [] (r2 !! Js.or_else ip "unknown") →
  snd (rateLimit windowMs maxRequests r1 ip now)
  = snd (rateLimit windowMs maxRequests r2 ip now)
  ∧ fst (rateLimit windowMs maxRequests r1 ip now) !! Js.or_else ip "unknown"
    = fst (rateLimit windowMs maxRequests r2 ip now) !! Js.or_else ip "unknown".
Proof.
  intros Hrec. rewrite !rateLimit_step. simpl. rewrite Hrec.
  destruct (maxRequests <=? _); simpl; by rewrite !lookup_insert_eq.
Qed.

Lemma rateLimit_other windowMs maxRequests
    (requests : gmap string (list Z)) ip now clientId :
  Js.or_else ip "unknown" ≠ clientId →
  fst (rateLimit windowMs maxRequests requests ip now) !! clientId
  = requests !! clientId.
Proof.
  intros Hne. rewrite rateLimit_step. simpl.
  destruct (maxRequests <=? _); simpl; by rewrite lookup_insert_ne.
Qed.

Lemma serve_per_client windowMs maxRequests clientId incoming :
  ∀ r1 r2 : gmap string (list Z),
    default [] (r1 !! clientId) = default [] (r2 !! clientId) →
    answersTo clientId incoming (snd (serve windowMs maxRequests r1 incoming))
    = snd (serve windowMs maxRequests r2 (requestsOf clientId incoming)).
Proof.
  induction incoming as [|[ip now] rest IH]; intros r1 r2 Hrec; [done|].
  rewrite serve_cons. unfold answersTo, requestsOf in *. cbn [snd zip zip_with].
  destruct (decide (Js.or_else ip "unknown" = clientId)) as [Hown|Hother].
  - rewrite !filter_cons_True by done. rewrite serve_cons.
    cbn [snd fmap list_fmap]. subst clientId.
    destruct (rateLimit_same_record windowMs maxRequests r1 r2 ip now Hrec)
      as [Hanswer Hafter].
    f_equal; [done|]. apply IH. by rewrite Hafter.
  - rewrite !filter_cons_False by done. apply IH.
    by rewrite rateLimit_other.
Qed.

(** X18.  Each client identity has a quota of its own: the answers a
    client gets in any mix of traffic are the answers it would get if
    its requests were the only ones.  The identity is [req.ip], and
    every request without one (an empty or missing address) draws on
    the one record of the identity [unknown]. *)
Theorem clients_are_limited_independently windowMs maxRequests
    (clientId : string) (incoming : list (option string * Z)) :
  answersTo clientId incoming (snd (serve windowMs maxRequests ∅ incoming))
  = snd (serve windowMs maxRequests ∅ (requestsOf clientId incoming)).
Proof. by apply serve_per_client. Qed.

(** The requests without an address share a quota of two. *)
Example unknown_clients_share_a_quota :
  requestsOf "unknown" Scenario.traffic
  = [(None, 1500%Z); (Some "", 2500%Z); (None, 3500%Z)]
  ∧ answersTo "unknown" Scenario.traffic
      (snd (serve 60000 2 ∅ Scenario.traffic))
    = [Next; Next; TooManyRequests 60].
Proof. split; reflexivity. Qed.

Lemma serve_others windowMs maxRequests clientId between :
  ∀ requests : gmap string (list Z),
    Forall (λ request, Js.or_else (fst request) "unknown" ≠ clientId) between →
    fst (serve windowMs maxRequests requests between) !! clientId
    = requests !! clientId.
Proof.
  induction between as [|[ip now] rest IH]; intros requests Hothers; [done|].
  apply Forall_cons in Hothers as [Hother Hrest].
  rewrite serve_cons. cbn [fst]. rewrite IH by done.
  by apply rateLimit_other.
Qed.

(** [1000 * Math.ceil(windowMs / 1000)] milliseconds cover the window. *)
Lemma retryAfter_covers_window windowMs :
  (windowMs ≤ 1000 * retryAfter windowMs)%Z.
Proof.
  unfold retryAfter.
  pose proof (Z.mul_div_le (- windowMs) 1000 ltac:(lia)). lia.
Qed.

(** X19.  The retry-after hint is sufficient.  When the clock has not
    run backwards (no recorded timestamp is later than the request) and
    the limiter admits at least one request per window, a client that
    waits the [retryAfter] seconds returned with a refusal, and sends
    nothing in between, is admitted, whatever the other clients send
    meanwhile. *)
Theorem retry_after_hint_suffices windowMs (maxRequests : nat)
    (requests : gmap string (list Z)) (ip : option string) (now later : Z)
    (between : list (option string * Z)) :
  0 < maxRequests →
  Forall (λ timestamp, (timestamp ≤ now)%Z)
         (default [] (requests !! Js.or_else ip "unknown")) →
  Forall (λ request, Js.or_else (fst request) "unknown"
                     ≠ Js.or_else ip "unknown") between →
  (now + 1000 * retryAfter windowMs ≤ later)%Z →
  let refused := fst (rateLimit windowMs maxRequests requests ip now) in
  let meanwhile := fst (serve windowMs maxRequests refused between) in
  snd (rateLimit windowMs maxRequests meanwhile ip later) = Next.
Proof.
  intros Hquota Hclock Hothers Hwait refused meanwhile.
  pose proof (retryAfter_covers_window windowMs) as Hcover.
  assert (Hrec : ∃ stamps, meanwhile !! Js.or_else ip "unknown" = Some stamps
                           ∧ Forall (λ timestamp, (timestamp ≤ now)%Z) stamps).
  { subst meanwhile refused. rewrite serve_others by done.
    rewrite rateLimit_step. cbn zeta.
    assert (Hkept : Forall (λ timestamp, (timestamp ≤ now)%Z)
              (filter (λ timestamp, (timestamp > now - windowMs)%Z)
                 (default [] (requests !! Js.or_else ip "unknown")))).
    { rewrite Forall_forall in Hclock. apply Forall_forall.
      intros timestamp [_ Hin]%list_elem_of_filter. by apply Hclock. }
    destruct (maxRequests <=? _); simpl; rewrite lookup_insert_eq;
      eexists; (split; [done|]); [done|].
    apply Forall_app. split; [done|]. by apply Forall_singleton. }
  destruct Hrec as (stamps & Hstamps & Hold).
  rewrite rateLimit_step. cbn zeta. rewrite Hstamps. simpl.
  rewrite (filter_none _ stamps).
  - simpl. destruct maxRequests; [lia|done].
  - intros timestamp Hin. rewrite Forall_forall in Hold.
    specialize (Hold _ Hin). lia.
Qed.

(** Refused at 3000 with a hint of 60 seconds; admitted at 63000. *)
Lemma retry_after_hint_suffices_witness :
  let requests : gmap string (list Z) := {[ "10.0.0.1" := [1000; 2000]%Z ]} in
  let refused := rateLimit 60000 2 requests (Some "10.0.0.1") 3000 in
  snd refused = TooManyRequests 60
  ∧ snd (rateLimit 60000 2
           (fst (serve 60000 2 (fst refused) [(None, 4000%Z)]))
           (Some "10.0.0.1") 63000) = Next.
Proof.
  intros requests refused. split; [reflexivity|].
  assert (Hquota : 0 < 2) by lia.
  assert (Hclock : Forall (λ timestamp, (timestamp ≤ 3000)%Z)
            (default [] (requests !! Js.or_else (Some "10.0.0.1") "unknown"))).
  { change (Forall (λ timestamp, (timestamp ≤ 3000)%Z) [1000; 2000]%Z).
    repeat constructor; lia. }
  assert (Hothers : Forall (λ request, Js.or_else (fst request) "unknown"
                                       ≠ Js.or_else (Some "10.0.0.1") "unknown")
                      [(None, 4000%Z)])
    by (repeat constructor; discriminate).
  assert (Hwait : (3000 + 1000 * retryAfter 60000 ≤ 63000)%Z)
    by (vm_compute; discriminate).
  exact (retry_after_hint_suffices 60000 2 requests (Some "10.0.0.1") 3000
           63000 [(None, 4000%Z)] Hquota Hclock Hothers Hwait).
Defined.

End RateLimitMore.
